(** * The CAAS unit provisioner worker (worker/caasunitprovisioner/worker.go)

    A shallow embedding of the provisioner: its configuration check, the
    registry of application workers, and the reconciliation loop, followed
    by the properties the specification states about them.

    The loop talks to collaborators that are Go interfaces.  Each interface
    is a record of functions that receive the history of calls made so far,
    so a collaborator may answer the same question differently over time
    (an application that is alive now and gone later).  Everything the loop
    does to the outside world is appended to that history. *)

From stdpp Require Import gmap strings list fin_maps.

Open Scope string_scope.
Open Scope list_scope.

(** ** github.com/juju/errors, as far as the worker uses it *)

Module errors.

Inductive kind := Plain | NotFound | NotValid.

(** An error value is either created with a kind and a message, or is an
    earlier error annotated by [Trace] with the place it passed through. *)
Inductive error :=
| Err (k : kind) (msg : string)
| Traced (previous : error).

#[global] Instance kind_eq_dec : EqDecision kind.
Proof. solve_decision. Defined.

#[global] Instance error_eq_dec : EqDecision error.
Proof. solve_decision. Defined.

Definition New (msg : string) : error := Err Plain msg.
Definition NotValidf (msg : string) : error := Err NotValid (msg +:+ " not valid").
Definition NotFoundf (msg : string) : error := Err NotFound (msg +:+ " not found").
Definition Trace (e : error) : error := Traced e.

Fixpoint Cause (e : error) : error :=
  match e with
  | Err _ _ => e
  | Traced e' => Cause e'
  end.

Fixpoint Message (e : error) : string :=
  match e with
  | Err _ msg => msg
  | Traced e' => Message e'
  end.

Definition kind_of (e : error) : kind :=
  match Cause e with
  | Err k _ => k
  | Traced _ => Plain
  end.

(** [IsNotFound] and [IsNotValid] take a Go [error], which may be nil. *)
Definition IsNotFound (err : option error) : bool :=
  match err with
  | Some e => match kind_of e with NotFound => true | _ => false end
  | None => false
  end.

Definition IsNotValid (err : option error) : bool :=
  match err with
  | Some e => match kind_of e with NotValid => true | _ => false end
  | None => false
  end.

End errors.

Abbreviation error := errors.error.

(** ** core/life *)

Module life.
(** Modelled from the spec: the Life value of an application is one of
    Alive, Dying, Dead (core/life is not among the sources); an absent
    application is reported by a NotFound error, not by a value. *)
Inductive Value := Alive | Dying | Dead.

Definition eqb (a b : Value) : bool :=
  match a, b with
  | Alive, Alive | Dying, Dying | Dead, Dead => true
  | _, _ => false
  end.
End life.

(** ** Workers, channels and the history of calls *)

(** A channel is known by the order in which [make] created it. *)
Definition chan := nat.

(** Modelled from the spec: the application worker is constructed with the
    application name, its removal channel and the managed-units flag
    (application_worker.go is not among the sources). *)
Record applicationWorker := {
  application : string;
  appRemoved : chan;
  jujuManagedUnits : bool;
}.

(** The handle [WatchApplications] returns. *)
Definition StringsWatcher := nat.

(** What [catacomb.Add] and [worker.Stop] accept. *)
Inductive Worker :=
| WatcherWorker (w : StringsWatcher)
| AppWorker (w : applicationWorker).

Inductive Event :=
| EWatchApplications
| ECatacombAdd (w : Worker)
| EChanges (apps : list string)
| EChangesClosed
| ELife (appId : string)
| EUnexposeService (appId : string)
| EDeleteService (appId : string)
| ESend (c : chan)
| EClose (c : chan)
| EStop (w : applicationWorker)
| ELogErrorf (msg : string)
| EApplicationConfig (appId : string)
| EMakeChan (c : chan)
| ENewApplicationWorker (appId : string) (c : chan) (managed : bool).

Definition History := list Event.

(** ** The collaborator interfaces *)

(** Modelled from the spec: an application's config is a mapping from
    option names to values, read with typed accessors that take a default
    (the config type is declared outside the sources). *)
Inductive ConfigValue := BoolValue (b : bool) | OtherValue (v : string).

Definition ConfigAttributes := gmap string ConfigValue.

Definition GetBool (cfg : ConfigAttributes) (key : string) (default : bool) : bool :=
  match cfg !! key with
  | Some (BoolValue b) => b
  | _ => default
  end.

Module caas.
(** The name of the managed-units option; package caas is not among the
    sources, and no statement depends on the spelling. *)
Definition JujuManagedUnits : string := "juju-managed-units".
End caas.

Record ApplicationGetterI := {
  WatchApplications : History -> StringsWatcher * option error;
  ApplicationConfig : History -> string -> ConfigAttributes * option error;
}.

Record LifeGetterI := {
  Life : History -> string -> life.Value * option error;
}.

Record ContainerBrokerI := {
  UnexposeService : History -> string -> option error;
  DeleteService : History -> string -> option error;
}.

(** The remaining capabilities are only handed on to the application
    workers; the provisioner never calls them. *)
Record PassedThrough := { handle : nat }.

(** ** Config and its validation *)

Record Config := {
  ApplicationGetter : option ApplicationGetterI;
  ApplicationUpdater : option PassedThrough;
  ServiceBroker : option PassedThrough;
  ContainerBroker : option ContainerBrokerI;
  PodSpecGetter : option PassedThrough;
  LifeGetter : option LifeGetterI;
  UnitGetter : option PassedThrough;
  UnitUpdater : option PassedThrough;
}.

(** A nil interface value is [None]. *)
Definition is_nil {A} (x : option A) : bool :=
  match x with None => true | Some _ => false end.

Definition Validate (config : Config) : option error :=
  if is_nil (ApplicationGetter config) then
    Some (errors.NotValidf "missing ApplicationGetter")
  else if is_nil (ApplicationUpdater config) then
    Some (errors.NotValidf "missing ApplicationUpdater")
  else if is_nil (ServiceBroker config) then
    Some (errors.NotValidf "missing ServiceBroker")
  else if is_nil (ContainerBroker config) then
    Some (errors.NotValidf "missing ContainerBroker")
  else if is_nil (PodSpecGetter config) then
    Some (errors.NotValidf "missing PodSpecGetter")
  else if is_nil (LifeGetter config) then
    Some (errors.NotValidf "missing LifeGetter")
  else if is_nil (UnitGetter config) then
    Some (errors.NotValidf "missing UnitGetter")
  else if is_nil (UnitUpdater config) then
    Some (errors.NotValidf "missing UnitUpdater")
  else None.

Definition is_nil_list {A} (l : list A) : bool :=
  match l with [] => true | _ :: _ => false end.

(** ** worker/catacomb *)

#[global] Instance applicationWorker_eq_dec : EqDecision applicationWorker.
Proof. solve_decision. Defined.

#[global] Instance Worker_eq_dec : EqDecision Worker.
Proof. solve_decision. Defined.

Module catacomb.

(** Modelled from the spec: the supervision node of the root (the
    catacomb package is not among the sources).  The node records whether
    its task was started, whether it is dying, the terminal error (the
    first non-nil reason it was killed with), whether the task has
    finished, and the children attached to it that are still running. *)
Record Catacomb := {
  started : bool;
  dying : bool;
  reason : option error;
  finished : bool;
  children : list Worker;
}.

Definition zero : Catacomb :=
  {| started := false; dying := false; reason := None; finished := false;
     children := [] |}.

(** The error a task returns when it stops because its node is dying. *)
Definition ErrDying : error := errors.New "catacomb is dying".

(** Modelled from the spec: [Kill] makes the node dying; of the reasons
    given to it the first non-nil one is the terminal error, so a later
    kill never replaces an error. *)
Definition Kill (c : Catacomb) (r : option error) : Catacomb :=
  {| started := started c; dying := true;
     reason := match reason c with Some e => Some e | None => r end;
     finished := finished c; children := children c |}.

(** Modelled from the spec: [Invoke] starts the plan's Work as the node's
    task; the caller gets no error. *)
Definition Invoke (site : Catacomb) : Catacomb * option error :=
  ({| started := true; dying := dying site;
      reason := reason site; finished := finished site;
      children := children site |}, None).

(** Modelled from the spec: [Add] attaches a worker as a child of the
    node. *)
Definition Add (c : Catacomb) (w : Worker) : Catacomb :=
  {| started := started c; dying := dying c; reason := reason c;
     finished := finished c; children := children c ++ [w] |}.

(** Modelled from the spec: an attached child has finished.  It is a child
    no more; if it finished with an error the node is killed with that
    error, and is left as it is if the child finished cleanly. *)
Definition childFinished (c : Catacomb) (w : Worker) (err : option error)
    : Catacomb :=
  let c' := {| started := started c; dying := dying c; reason := reason c;
               finished := finished c;
               children := filter (fun x => x <> w) (children c) |} in
  match err with
  | Some e => Kill c' (Some e)
  | None => c'
  end.

(** Modelled from the spec: when the task returns [err], the node is
    killed with it, and the task is done.  A task that returns [ErrDying]
    stopped because the node had been killed; that adds no reason. *)
Definition workReturned (c : Catacomb) (err : error) : Catacomb :=
  let c' := if decide (errors.Cause err = ErrDying) then Kill c None
            else Kill c (Some err) in
  {| started := started c'; dying := dying c';
     reason := reason c'; finished := true; children := children c' |}.

(** Modelled from the spec: the dying node stops the children it still
    has and waits for them; [last w] is the error child [w] finishes
    with.  The errors count like any other kill. *)
Definition join (c : Catacomb) (last : Worker -> option error) : Catacomb :=
  let c' := foldl (fun acc w => match last w with
                                | Some e => Kill acc (Some e)
                                | None => acc
                                end) c (children c) in
  {| started := started c; dying := dying c'; reason := reason c';
     finished := finished c; children := [] |}.

(** Modelled from the spec: [Wait] blocks ([None]) until the task and all
    attached children have finished, and then returns the terminal error,
    nil after a clean stop. *)
Definition Wait (c : Catacomb) : option (option error) :=
  if finished c && is_nil_list (children c) then Some (reason c) else None.

End catacomb.

(** ** Go maps

    A [map[string]*applicationWorker] is nil ([None]) until [make]
    allocates it.  Reading, measuring and deleting are defined on a nil map;
    assigning to an entry of a nil map panics ([None] as a result). *)

Module gomap.

Definition t := option (gmap string applicationWorker).

Definition make : t := Some ∅.

Definition len (m : t) : nat :=
  match m with
  | None => 0
  | Some m' => size m'
  end.

(** [v, ok := m[k]] *)
Definition index (m : t) (k : string) : option applicationWorker * bool :=
  match m with
  | None => (None, false)
  | Some m' =>
      match m' !! k with
      | Some v => (Some v, true)
      | None => (None, false)
      end
  end.

(** [delete(m, k)] *)
Definition delete (m : t) (k : string) : t :=
  match m with
  | None => None
  | Some m' => Some (base.delete k m')
  end.

(** [m[k] = v] *)
Definition assign (m : t) (k : string) (v : applicationWorker) : option t :=
  match m with
  | None => None
  | Some m' => Some (Some (<[k := v]> m'))
  end.

End gomap.

(** ** The provisioner and its registry of application workers *)

Record provisioner := {
  catacomb_ : catacomb.Catacomb;
  config : Config;
  appWorkers : gomap.t;
}.

Definition set_appWorkers (p : provisioner) (m : gomap.t) : provisioner :=
  {| catacomb_ := catacomb_ p; config := config p; appWorkers := m |}.

Definition set_catacomb (p : provisioner) (c : catacomb.Catacomb) : provisioner :=
  {| catacomb_ := c; config := config p; appWorkers := appWorkers p |}.

(** The three helpers take the provisioner's mutex on entry and release it
    on return; in this sequential embedding one call runs at a time, so the
    lock is always free on entry and the helpers are functions of the
    registry alone.  A panic of the map assignment is [None]. *)

Definition saveApplicationWorker (p : provisioner) (appName : string)
    (aw : applicationWorker) : option provisioner :=
  let m := if is_nil (appWorkers p) then gomap.make else appWorkers p in
  match gomap.assign m appName aw with
  | Some m' => Some (set_appWorkers p m')
  | None => None
  end.

Definition deleteApplicationWorker (p : provisioner) (appName : string) : provisioner :=
  set_appWorkers p (gomap.delete (appWorkers p) appName).

Definition getApplicationWorker (p : provisioner) (appName : string)
    : option applicationWorker * bool :=
  if Nat.eqb (gomap.len (appWorkers p)) 0 then (None, false)
  else gomap.index (appWorkers p) appName.

(** ** The loop's effects *)

(** What the loop cannot decide itself: whether constructing a worker
    fails, which side of the removal race wins, what stopping a worker and
    what [catacomb.Add] return. *)
Inductive Race := SendAccepted | WorkerDying.

Record Runtime := {
  newApplicationWorkerError : History -> string -> option error;
  removalRace : History -> applicationWorker -> Race;
  workerStop : History -> applicationWorker -> option error;
  catacombAdd : History -> Worker -> option error;
}.

Record State := {
  prov : provisioner;
  history : History;
  chans : nat;
}.

(** A step of the loop body goes on ([Next]), makes the loop return an
    error ([Return]), or panics on a nil interface or nil map. *)
Inductive Outcome (A : Type) :=
| Next (a : A)
| Return (err : error)
| Panic (msg : string).
Arguments Next {A} a.
Arguments Return {A} err.
Arguments Panic {A} msg.

Definition M (A : Type) := State -> Outcome A * State.

Definition ret {A} (a : A) : M A := fun s => (Next a, s).

Definition bind {A B} (m : M A) (k : A -> M B) : M B :=
  fun s =>
    match m s with
    | (Next a, s') => k a s'
    | (Return e, s') => (Return e, s')
    | (Panic msg, s') => (Panic msg, s')
    end.

Notation "x <~ c ;; k" := (bind c (fun x => k))
  (at level 200, c at level 99, right associativity).
Notation "c ;;; k" := (bind c (fun _ => k))
  (at level 200, right associativity).

Definition record (s : State) (e : Event) : State :=
  {| prov := prov s; history := history s ++ [e]; chans := chans s |}.

Definition set_prov (s : State) (p : provisioner) : State :=
  {| prov := p; history := history s; chans := chans s |}.

(** A call to a collaborator: it answers from the history so far, and the
    call joins the history. *)
Definition call {A} (f : History -> A) (e : Event) : M A :=
  fun s => (Next (f (history s)), record s e).

Definition emit (e : Event) : M unit :=
  fun s => (Next tt, record s e).

(** Calling a method of a nil interface panics. *)
Definition deref {A} (field : Config -> option A) (name : string) : M A :=
  fun s =>
    match field (config (prov s)) with
    | Some x => (Next x, s)
    | None => (Panic ("nil pointer dereference: " +:+ name), s)
    end.

(** [if err != nil { return errors.Trace(err) }] *)
Definition returnIfError (err : option error) : M unit :=
  fun s =>
    match err with
    | Some e => (Return (errors.Trace e), s)
    | None => (Next tt, s)
    end.

Definition lookupWorker (appName : string) : M (option applicationWorker * bool) :=
  fun s => (Next (getApplicationWorker (prov s) appName), s).

Definition saveWorker (appName : string) (aw : applicationWorker) : M unit :=
  fun s =>
    match saveApplicationWorker (prov s) appName aw with
    | Some p' => (Next tt, set_prov s p')
    | None => (Panic "assignment to entry in nil map", s)
    end.

Definition deleteWorker (appName : string) : M unit :=
  fun s => (Next tt, set_prov s (deleteApplicationWorker (prov s) appName)).

(** [make(chan struct{})] *)
Definition makeChan : M chan :=
  fun s =>
    let c := chans s in
    (Next c, {| prov := prov s; history := history s ++ [EMakeChan c]; chans := S c |}).

(** Modelled from the spec: [newApplicationWorker] keeps the name, the
    removal channel and the flag it is given; whether it fails is the
    runtime's answer (application_worker.go is not among the sources). *)
Definition newApplicationWorker (rt : Runtime) (appId : string) (c : chan)
    (managed : bool) : M (applicationWorker + error) :=
  fun s =>
    let r := match newApplicationWorkerError rt (history s) appId with
             | Some e => inr e
             | None => inl {| application := appId; appRemoved := c;
                              jujuManagedUnits := managed |}
             end in
    (Next r, record s (ENewApplicationWorker appId c managed)).

(** The select of the removal handshake: the send on the worker's removal
    channel is accepted, or the worker's catacomb is dying and the root
    closes the channel. *)
Definition removalHandshake (rt : Runtime) (w : applicationWorker) : M unit :=
  fun s =>
    match removalRace rt (history s) w with
    | SendAccepted => (Next tt, record s (ESend (appRemoved w)))
    | WorkerDying => (Next tt, record s (EClose (appRemoved w)))
    end.

Definition stopMessage (appId : string) (err : error) : string :=
  "stopping application worker for " +:+ appId +:+ ": " +:+ errors.Message err.

(** [if err := worker.Stop(w); err != nil { logger.Errorf(...) }] *)
Definition stopWorker (rt : Runtime) (appId : string) (w : applicationWorker) : M unit :=
  err <~ call (fun h => workerStop rt h w) (EStop w) ;;
  match err with
  | Some e => emit (ELogErrorf (stopMessage appId e))
  | None => ret tt
  end.

(** The branch of the loop body taken when Life reports NotFound. *)
Definition removeApplication (rt : Runtime) (appId : string) : M unit :=
  broker <~ deref ContainerBroker "ContainerBroker" ;;
  err <~ call (fun h => UnexposeService broker h appId) (EUnexposeService appId) ;;
  returnIfError err ;;;
  broker <~ deref ContainerBroker "ContainerBroker" ;;
  err <~ call (fun h => DeleteService broker h appId) (EDeleteService appId) ;;
  returnIfError err ;;;
  r <~ lookupWorker appId ;;
  if snd r then
    match fst r with
    | Some w =>
        removalHandshake rt w ;;;
        stopWorker rt appId w ;;;
        deleteWorker appId
    | None => fun s => (Panic "nil pointer dereference: applicationWorker", s)
    end
  else ret tt.

(** The rest of the loop body: start a worker for an application that has
    none and is not dead. *)
Definition startApplication (rt : Runtime) (appId : string) : M unit :=
  getter <~ deref ApplicationGetter "ApplicationGetter" ;;
  r <~ call (fun h => ApplicationConfig getter h appId) (EApplicationConfig appId) ;;
  returnIfError (snd r) ;;;
  let managed := GetBool (fst r) caas.JujuManagedUnits false in
  c <~ makeChan ;;
  r <~ newApplicationWorker rt appId c managed ;;
  match r with
  | inr e => returnIfError (Some e)
  | inl w =>
      saveWorker appId w ;;;
      _ <~ call (fun h => catacombAdd rt h (AppWorker w)) (ECatacombAdd (AppWorker w)) ;;
      ret tt
  end.

(** The body of [for _, appId := range apps]. *)
Definition handleApp (rt : Runtime) (appId : string) : M unit :=
  lifeGetter <~ deref LifeGetter "LifeGetter" ;;
  r <~ call (fun h => Life lifeGetter h appId) (ELife appId) ;;
  if errors.IsNotFound (snd r) then removeApplication rt appId
  else
    returnIfError (snd r) ;;;
    w <~ lookupWorker appId ;;
    if snd w || life.eqb (fst r) life.Dead then ret tt
    else startApplication rt appId.

Fixpoint handleApps (rt : Runtime) (apps : list string) : M unit :=
  match apps with
  | [] => ret tt
  | appId :: rest => handleApp rt appId ;;; handleApps rt rest
  end.

(** What the loop's select yields at each turn: the root's death signal,
    a batch of changed names, or the closed change channel. *)
Inductive Select :=
| SelDying
| SelChanges (apps : list string)
| SelClosed.

(** The loop has returned an error, has panicked, or is blocked in its
    select because the script of select results is used up. *)
Inductive LoopResult :=
| Blocked
| Returned (err : error)
| Panicked (msg : string).

Fixpoint selectLoop (rt : Runtime) (script : list Select) (s : State)
    : LoopResult * State :=
  match script with
  | [] => (Blocked, s)
  | SelDying :: _ => (Returned catacomb.ErrDying, s)
  | SelClosed :: _ =>
      (Returned (errors.New "watcher closed channel"), record s EChangesClosed)
  | SelChanges apps :: rest =>
      match handleApps rt apps (record s (EChanges apps)) with
      | (Next _, s') => selectLoop rt rest s'
      | (Return e, s') => (Returned e, s')
      | (Panic msg, s') => (Panicked msg, s')
      end
  end.

(** What precedes the [for] in [loop]. *)
Definition watch (rt : Runtime) : M unit :=
  getter <~ deref ApplicationGetter "ApplicationGetter" ;;
  r <~ call (fun h => WatchApplications getter h) EWatchApplications ;;
  returnIfError (snd r) ;;;
  err <~ call (fun h => catacombAdd rt h (WatcherWorker (fst r)))
              (ECatacombAdd (WatcherWorker (fst r))) ;;
  returnIfError err.

Definition loop (rt : Runtime) (script : list Select) (s : State)
    : LoopResult * State :=
  match watch rt s with
  | (Next _, s') => selectLoop rt script s'
  | (Return e, s') => (Returned e, s')
  | (Panic msg, s') => (Panicked msg, s')
  end.

(** ** NewWorker, and the root task it starts *)

Definition NewWorker (config : Config) : option provisioner * option error :=
  match Validate config with
  | Some err => (None, Some (errors.Trace err))
  | None =>
      let p := {| catacomb_ := catacomb.zero; config := config; appWorkers := None |} in
      let r := catacomb.Invoke (catacomb_ p) in
      (Some (set_catacomb p (fst r)), snd r)
  end.

Definition start (p : provisioner) : State :=
  {| prov := p; history := []; chans := 0 |}.

(** The task [Invoke] started runs [loop]; when [loop] returns, the
    catacomb is killed with its error and the task is done. *)
Definition run (rt : Runtime) (script : list Select) (p : provisioner)
    : LoopResult * State :=
  match loop rt script (start p) with
  | (Returned e, s) =>
      (Returned e, set_prov s (set_catacomb (prov s)
                                 (catacomb.workReturned (catacomb_ (prov s)) e)))
  | other => other
  end.

(** [Wait] is part of the worker.Worker interface. *)
Definition Wait (p : provisioner) : option (option error) :=
  catacomb.Wait (catacomb_ p).

(** ** The catacomb alongside the loop

    The loop never writes its catacomb: the catacomb changes through the
    calls the loop makes on it and through what happens to its children.
    Both are read off the history of a run. *)

(** What reaches the catacomb from outside the loop: [during n] are the
    reasons it is killed with at the moment the history holds [n] events
    (nil for a call of [Kill], the error of a child that failed on its
    own); [afterwards w] is the error child [w] finishes with when the
    dying catacomb stops it. *)
Record Outside := {
  during : nat -> list (option error);
  afterwards : Worker -> option error;
}.

(** Modelled from the spec: what one call of the loop does to the
    catacomb, [seen] being the history before the call.  [catacomb.Add]
    attaches the worker when it returns nil.  [worker.Stop] returns the
    error the worker finished with; if the worker is an attached child,
    the catacomb sees it finish with that error. *)
Definition superviseEvent (rt : Runtime) (seen : History) (e : Event)
    (c : catacomb.Catacomb) : catacomb.Catacomb :=
  match e with
  | ECatacombAdd w =>
      match catacombAdd rt seen w with
      | None => catacomb.Add c w
      | Some _ => c
      end
  | EStop w =>
      if decide (AppWorker w ∈ catacomb.children c)
      then catacomb.childFinished c (AppWorker w) (workerStop rt seen w)
      else c
  | _ => c
  end.

(** The catacomb after the events [todo] that follow the history [seen],
    with the kills from outside at their moments. *)
Fixpoint supervise (rt : Runtime) (out : Outside) (seen : History)
    (todo : list Event) (c : catacomb.Catacomb) : catacomb.Catacomb :=
  let c := foldl catacomb.Kill c (during out (length seen)) in
  match todo with
  | [] => c
  | e :: todo' =>
      supervise rt out (seen ++ [e]) todo' (superviseEvent rt seen e c)
  end.

(** The task [Invoke] started runs [loop] next to its catacomb.  When
    [loop] returns, the catacomb, as the run has left it, is killed with
    the error returned, stops its remaining children and waits for them. *)
Definition runSupervised (rt : Runtime) (out : Outside) (script : list Select)
    (p : provisioner) : LoopResult * State :=
  let r := loop rt script (start p) in
  let c := supervise rt out [] (history (snd r)) (catacomb_ p) in
  match fst r with
  | Returned e =>
      (Returned e,
       set_prov (snd r)
         (set_catacomb (prov (snd r))
            (catacomb.join (catacomb.workReturned c e) (afterwards out))))
  | other => (other, set_prov (snd r) (set_catacomb (prov (snd r)) c))
  end.

(** ** Test doubles

    Collaborators with fixed answers, for running the loop on concrete
    inputs. *)

Module doubles.

Definition isLife (e : Event) : bool :=
  match e with ELife _ => true | _ => false end.

(** A life getter that gives its answers in turn, one per call. *)
Definition lifeGetter (answers : list (life.Value * option error)) : LifeGetterI :=
  {| Life := fun h _ =>
       nth (length (filter (fun e => isLife e = true) h)) answers
           (life.Dead, Some (errors.New "no more answers")) |}.

Definition broker (unexpose delete : option error) : ContainerBrokerI :=
  {| UnexposeService := fun _ _ => unexpose;
     DeleteService := fun _ _ => delete |}.

Definition getter (cfg : ConfigAttributes * option error) : ApplicationGetterI :=
  {| WatchApplications := fun _ => (0, None);
     ApplicationConfig := fun _ _ => cfg |}.

Definition other : option PassedThrough := Some {| handle := 0 |}.

Definition mkConfig (g : ApplicationGetterI) (b : ContainerBrokerI)
    (l : LifeGetterI) : Config :=
  {| ApplicationGetter := Some g; ApplicationUpdater := other;
     ServiceBroker := other; ContainerBroker := Some b;
     PodSpecGetter := other; LifeGetter := Some l;
     UnitGetter := other; UnitUpdater := other |}.

Definition runtime (new : option error) (race : Race) (stop add : option error)
    : Runtime :=
  {| newApplicationWorkerError := fun _ _ => new;
     removalRace := fun _ _ => race;
     workerStop := fun _ _ => stop;
     catacombAdd := fun _ _ => add |}.

Definition gone : option error := Some (errors.NotFoundf "application app1").
Definition boom : error := errors.New "boom".

Definition okGetter : ApplicationGetterI :=
  getter ({[caas.JujuManagedUnits := BoolValue true]}, None).
Definition okBroker : ContainerBrokerI := broker None None.
Definition quiet : Runtime := runtime None SendAccepted None None.

(** A provisioner as [NewWorker] leaves it, for a complete config. *)
Definition fresh (config : Config) : provisioner :=
  {| catacomb_ := fst (catacomb.Invoke catacomb.zero);
     config := config; appWorkers := None |}.

Definition worker1 : applicationWorker :=
  {| application := "app1"; appRemoved := 0; jujuManagedUnits := true |}.

Definition worker2 : applicationWorker :=
  {| application := "app2"; appRemoved := 1; jujuManagedUnits := true |}.

(** A runtime whose catacomb accepts the watcher and refuses every
    application worker. *)
Definition attachFails : Runtime :=
  {| newApplicationWorkerError := fun _ _ => None;
     removalRace := fun _ _ => SendAccepted;
     workerStop := fun _ _ => None;
     catacombAdd := fun _ w =>
       match w with
       | WatcherWorker _ => None
       | AppWorker _ => Some boom
       end |}.

(** Nothing reaches the catacomb from outside the loop. *)
Definition calm : Outside :=
  {| during := fun _ => []; afterwards := fun _ => None |}.

(** A runtime in which stopping a worker returns an error. *)
Definition stopFails : Runtime := runtime None SendAccepted (Some boom) None.

End doubles.

(** ** Vocabulary for the statements *)

(** The registry as a finite map; the nil map has no entries. *)
Definition registry (p : provisioner) : gmap string applicationWorker :=
  match appWorkers p with
  | Some m => m
  | None => ∅
  end.

(** The names of the config fields that are nil, in the order [Validate]
    looks at them. *)
Definition missing (c : Config) : list string :=
  (if is_nil (ApplicationGetter c) then ["ApplicationGetter"] else []) ++
  (if is_nil (ApplicationUpdater c) then ["ApplicationUpdater"] else []) ++
  (if is_nil (ServiceBroker c) then ["ServiceBroker"] else []) ++
  (if is_nil (ContainerBroker c) then ["ContainerBroker"] else []) ++
  (if is_nil (PodSpecGetter c) then ["PodSpecGetter"] else []) ++
  (if is_nil (LifeGetter c) then ["LifeGetter"] else []) ++
  (if is_nil (UnitGetter c) then ["UnitGetter"] else []) ++
  (if is_nil (UnitUpdater c) then ["UnitUpdater"] else []).

(** The state after the loop has appended [evs] to the history. *)
Definition after (s : State) (evs : list Event) : State :=
  {| prov := prov s; history := history s ++ evs; chans := chans s |}.

Definition isBrokerCall (e : Event) : bool :=
  match e with
  | EUnexposeService _ | EDeleteService _ => true
  | _ => false
  end.

(** What the NotFound branch adds to the history [h] for a registered
    worker once both broker calls have succeeded: the signal of the
    handshake, the stop, and the log line if the stop failed. *)
Definition handshakeEvents (rt : Runtime) (appId : string) (h : History)
    (w : applicationWorker) : list Event :=
  let signal := match removalRace rt h w with
                | SendAccepted => ESend (appRemoved w)
                | WorkerDying => EClose (appRemoved w)
                end in
  [signal; EStop w] ++
  match workerStop rt (h ++ [signal]) w with
  | Some e => [ELogErrorf (stopMessage appId e)]
  | None => []
  end.

(** The provisioner after [saveApplicationWorker]. *)
Definition saved (p : provisioner) (appName : string) (aw : applicationWorker)
    : provisioner :=
  set_appWorkers p (Some (<[appName := aw]> (registry p))).

(** The worker the loop constructs for [appId] in state [s] from the
    config [cfg]. *)
Definition built (s : State) (appId : string) (cfg : ConfigAttributes)
    : applicationWorker :=
  {| application := appId; appRemoved := chans s;
     jujuManagedUnits := GetBool cfg caas.JujuManagedUnits false |}.

(** The loop, started on a batch in state [s0], has handled the names
    [pre] without returning and is about to handle [appId] in state [s]. *)
Definition Reaches (rt : Runtime) (s0 : State) (pre : list string)
    (appId : string) (post : list string) (s : State) : Prop :=
  handleApps rt pre (record s0 (EChanges (pre ++ appId :: post))) = (Next tt, s).

(** The number of times the history sends on or closes the channel [c]. *)
Definition isSignal (c : chan) (e : Event) : bool :=
  match e with
  | ESend c' | EClose c' => Nat.eqb c c'
  | _ => false
  end.

Fixpoint signals (c : chan) (h : History) : nat :=
  match h with
  | [] => 0
  | e :: h' => (if isSignal c e then 1 else 0) + signals c h'
  end.

(** The channels the history makes, in order. *)
Fixpoint made (h : History) : list chan :=
  match h with
  | [] => []
  | EMakeChan c :: h' => c :: made h'
  | _ :: h' => made h'
  end.

(** Events that neither signal on a channel nor make one. *)
Definition quietEvent (e : Event) : bool :=
  match e with
  | ESend _ | EClose _ | EMakeChan _ => false
  | _ => true
  end.

(** What the loop maintains about removal channels: a registered worker's
    channel has been made and not yet signalled; two registered names never
    share a channel; no channel has been signalled twice, and none before
    being made; the channels made so far are 0, 1, ... in order. *)
Record ChannelsInv (s : State) : Prop := {
  inv_registered : forall a w, registry (prov s) !! a = Some w ->
      appRemoved w < chans s /\ signals (appRemoved w) (history s) = 0;
  inv_distinct : forall a b w w', registry (prov s) !! a = Some w ->
      registry (prov s) !! b = Some w' -> appRemoved w = appRemoved w' -> a = b;
  inv_once : forall c, signals c (history s) <= 1;
  inv_unmade : forall c, chans s <= c -> signals c (history s) = 0;
  inv_made : made (history s) = seq 0 (chans s);
}.

(** The number of times the history constructs a worker for [appId]. *)
Definition isConstruction (appId : string) (e : Event) : bool :=
  match e with
  | ENewApplicationWorker a _ _ => String.eqb appId a
  | _ => false
  end.

Fixpoint constructions (appId : string) (h : History) : nat :=
  match h with
  | [] => 0
  | e :: h' => (if isConstruction appId e then 1 else 0) + constructions appId h'
  end.

(** The runtime [rt] with another answer to [catacomb.Add]. *)
Definition withAdd (rt : Runtime) (add : History -> Worker -> option error) : Runtime :=
  {| newApplicationWorkerError := newApplicationWorkerError rt;
     removalRace := removalRace rt;
     workerStop := workerStop rt;
     catacombAdd := add |}.

(** Events other than the receive of a batch. *)
Definition notReceive (e : Event) : bool :=
  match e with
  | EChanges _ => false
  | _ => true
  end.

(** The names [names] are handled one after the other, from state [s]
    to state [s']: each by a run of the loop body that comes to its end
    and goes on to the next name. *)
Inductive Steps (rt : Runtime) : State -> list string -> State -> Prop :=
| Steps_done s : Steps rt s [] s
| Steps_next s appId s1 names s2 :
    handleApp rt appId s = (Next tt, s1) ->
    Steps rt s1 names s2 ->
    Steps rt s (appId :: names) s2.

(** The batches [batches] are received and handled one after the other,
    from the loop's select in state [s] to its select in state [s']:
    each is received and all its names are handled before the next. *)
Inductive Turns (rt : Runtime) : State -> list (list string) -> State -> Prop :=
| Turns_done s : Turns rt s [] s
| Turns_next s apps s1 batches s2 :
    Steps rt (record s (EChanges apps)) apps s1 ->
    Turns rt s1 batches s2 ->
    Turns rt s (apps :: batches) s2.

(** Handling [appId] in state [s] returns the error [e], traced, leaving the
    state [s'] with the provisioner (and so the registry) as it was; and
    the loop returns the same whenever it comes to handle [appId] in [s]. *)
Definition AbortsWith (rt : Runtime) (appId : string) (s : State) (e : error)
    (s' : State) : Prop :=
  handleApp rt appId s = (Return (errors.Trace e), s') /\
  prov s' = prov s /\
  forall s0 pre post rest, Reaches rt s0 pre appId post s ->
    selectLoop rt (SelChanges (pre ++ appId :: post) :: rest) s0
      = (Returned (errors.Trace e), s').

(** ** Vocabulary for the further properties *)

(** Every way handling one name can end, with the outcome and the state it
    leaves: a nil collaborator (panic), an error of a collaborator (return),
    the name skipped, cleaned up, its worker removed, or a worker started. *)
Inductive HandleCase (rt : Runtime) (appId : string) (s : State)
    : Outcome unit -> State -> Prop :=
| NilLifeGetter msg :
    LifeGetter (config (prov s)) = None ->
    HandleCase rt appId s (Panic msg) s
| LifeFailed e :
    errors.IsNotFound (Some e) = false ->
    HandleCase rt appId s (Return (errors.Trace e)) (after s [ELife appId])
| Skipped :
    HandleCase rt appId s (Next tt) (after s [ELife appId])
| NilContainerBroker msg :
    ContainerBroker (config (prov s)) = None ->
    HandleCase rt appId s (Panic msg) (after s [ELife appId])
| UnexposeFailed e :
    HandleCase rt appId s (Return (errors.Trace e))
      (after s [ELife appId; EUnexposeService appId])
| DeleteFailed e :
    HandleCase rt appId s (Return (errors.Trace e))
      (after s [ELife appId; EUnexposeService appId; EDeleteService appId])
| CleanedUp :
    registry (prov s) !! appId = None ->
    HandleCase rt appId s (Next tt)
      (after s [ELife appId; EUnexposeService appId; EDeleteService appId])
| Removed w :
    registry (prov s) !! appId = Some w ->
    let h := history s ++ [ELife appId; EUnexposeService appId; EDeleteService appId] in
    HandleCase rt appId s (Next tt)
      {| prov := deleteApplicationWorker (prov s) appId;
         history := h ++ handshakeEvents rt appId h w;
         chans := chans s |}
| NilApplicationGetter msg :
    ApplicationGetter (config (prov s)) = None ->
    HandleCase rt appId s (Panic msg) (after s [ELife appId])
| ConfigFailed e :
    HandleCase rt appId s (Return (errors.Trace e))
      (after s [ELife appId; EApplicationConfig appId])
| ConstructionFailed e managed :
    HandleCase rt appId s (Return (errors.Trace e))
      {| prov := prov s;
         history := history s ++
           [ELife appId; EApplicationConfig appId; EMakeChan (chans s);
            ENewApplicationWorker appId (chans s) managed];
         chans := S (chans s) |}
| Started cfg :
    registry (prov s) !! appId = None ->
    let w := built s appId cfg in
    HandleCase rt appId s (Next tt)
      {| prov := saved (prov s) appId w;
         history := history s ++
           [ELife appId; EApplicationConfig appId; EMakeChan (chans s);
            ENewApplicationWorker appId (chans s) (jujuManagedUnits w);
            ECatacombAdd (AppWorker w)];
         chans := S (chans s) |}.

(** How often the history holds an event that [P] accepts. *)
Fixpoint occurrences (P : Event -> bool) (h : History) : nat :=
  match h with
  | [] => 0
  | e :: h' => (if P e then 1 else 0) + occurrences P h'
  end.

(** Stops of a worker whose removal channel is [c]. *)
Definition isStop (c : chan) (e : Event) : bool :=
  match e with
  | EStop w => Nat.eqb c (appRemoved w)
  | _ => false
  end.

Definition stops (c : chan) (h : History) : nat := occurrences (isStop c) h.

Definition isUnexpose (appId : string) (e : Event) : bool :=
  match e with
  | EUnexposeService a => String.eqb appId a
  | _ => false
  end.

Definition isDelete (appId : string) (e : Event) : bool :=
  match e with
  | EDeleteService a => String.eqb appId a
  | _ => false
  end.

(** The removal channels handed to [newApplicationWorker], in order. *)
Fixpoint constructedChans (h : History) : list chan :=
  match h with
  | [] => []
  | ENewApplicationWorker _ c _ :: h' => c :: constructedChans h'
  | _ :: h' => constructedChans h'
  end.


(** Every registered worker is registered under its own application name
    and was constructed by a call the history records. *)
Definition Provenance (s : State) : Prop :=
  forall a w, registry (prov s) !! a = Some w ->
    application w = a /\
    ENewApplicationWorker a (appRemoved w) (jujuManagedUnits w) ∈ history s.

(** Each worker is stopped as often as its removal channel is signalled. *)
Definition Balanced (s : State) : Prop :=
  forall c, stops c (history s) = signals c (history s).

(** For every name, UnexposeService has been called as often as
    DeleteService; or, in the weaker form, at most once more. *)
Definition Cleaned (s : State) : Prop :=
  forall a, occurrences (isUnexpose a) (history s)
            = occurrences (isDelete a) (history s).

Definition AlmostCleaned (s : State) : Prop :=
  forall a, occurrences (isDelete a) (history s)
              <= occurrences (isUnexpose a) (history s)
              <= S (occurrences (isDelete a) (history s)).

(** The removal channels handed out so far are 0, 1, ... in order. *)
Definition ChannelsInOrder (s : State) : Prop :=
  constructedChans (history s) = seq 0 (chans s).

(** No error reaches the catacomb while the history [h] is made: none
    from outside the loop, and none from a worker the loop stops. *)
Definition Undisturbed (rt : Runtime) (out : Outside) (h : History) : Prop :=
  (forall n, Forall (fun r => r = None) (during out n)) /\
  (forall h1 w h2, h = h1 ++ EStop w :: h2 -> workerStop rt h1 w = None).

(** The events the loop records itself, outside the handling of a name. *)
Definition loopEvent (e : Event) : bool :=
  match e with
  | EWatchApplications | ECatacombAdd (WatcherWorker _)
  | EChanges _ | EChangesClosed => true
  | _ => false
  end.

(** ** Proof steps *)

Ltac inline_lets :=
  repeat match goal with x := _ |- _ => subst x end.

Ltac unfold_body :=
  unfold handleApp, removeApplication, startApplication, stopWorker,
    removalHandshake, newApplicationWorker, watch, bind, deref, call, emit,
    returnIfError, lookupWorker, saveWorker, deleteWorker, makeChan, ret.

Ltac state_eq :=
  unfold record, after, set_prov; simpl; rewrite <- ?app_assoc; simpl.

(** ** The registry helpers *)

Lemma getApplicationWorker_lookup p appName :
  getApplicationWorker p appName =
    match registry p !! appName with
    | Some w => (Some w, true)
    | None => (None, false)
    end.
Proof.
  unfold getApplicationWorker, registry, gomap.len, gomap.index.
  destruct (appWorkers p) as [m|]; simpl; [|done].
  destruct (Nat.eqb_spec (size m) 0) as [Hz|_]; [|done].
  apply map_size_empty_iff in Hz. subst m. by rewrite lookup_empty.
Qed.

Lemma deleteApplicationWorker_registry p appName :
  registry (deleteApplicationWorker p appName) = delete appName (registry p).
Proof.
  unfold deleteApplicationWorker, registry, set_appWorkers, gomap.delete. simpl.
  destruct (appWorkers p); simpl; [done|]. by rewrite delete_empty.
Qed.

Lemma saveApplicationWorker_registry p appName aw :
  exists p', saveApplicationWorker p appName aw = Some p' /\
             registry p' = <[appName := aw]> (registry p) /\
             config p' = config p /\ catacomb_ p' = catacomb_ p.
Proof.
  unfold saveApplicationWorker, registry.
  destruct (appWorkers p) as [m|]; simpl; eexists; (split; [reflexivity|]); done.
Qed.

(** C9. The registry helpers are defined on the zero-value provisioner:
    looking up a name that was never saved gives (nil, false), also when
    the map is nil or empty; deleting an absent name changes nothing;
    saving never panics, allocating the map when it is nil, and the saved
    worker is then found. *)
Theorem registry_helpers_total (p : provisioner) (appName : string)
    (aw : applicationWorker) :
  (registry p !! appName = None ->
     getApplicationWorker p appName = (None, false) /\
     deleteApplicationWorker p appName = p) /\
  (appWorkers p = None \/ appWorkers p = Some ∅ ->
     getApplicationWorker p appName = (None, false) /\
     deleteApplicationWorker p appName = p /\
     saveApplicationWorker p appName aw
       = Some (set_appWorkers p (Some {[appName := aw]}))) /\
  (exists p', saveApplicationWorker p appName aw = Some p' /\
              registry p' = <[appName := aw]> (registry p) /\
              getApplicationWorker p' appName = (Some aw, true)).
Proof.
  assert (Habsent : registry p !! appName = None ->
            getApplicationWorker p appName = (None, false) /\
            deleteApplicationWorker p appName = p).
  { intros Hno. split.
    - rewrite getApplicationWorker_lookup. by rewrite Hno.
    - destruct p as [c cfg [m|]]; unfold deleteApplicationWorker, set_appWorkers;
        simpl in *; [|done].
      by rewrite delete_id. }
  split; [exact Habsent|]. split.
  - intros Hzero.
    assert (Hno : registry p !! appName = None).
    { unfold registry. destruct Hzero as [-> | ->]; apply lookup_empty. }
    destruct (Habsent Hno) as [Hget Hdel]. repeat split; [done..|].
    unfold saveApplicationWorker. destruct Hzero as [-> | ->]; simpl;
      by rewrite insert_empty.
  - destruct (saveApplicationWorker_registry p appName aw) as (p' & Hs & Hr & _).
    exists p'. repeat split; [done..|].
    rewrite getApplicationWorker_lookup, Hr. by rewrite lookup_insert_eq.
Qed.

Lemma registry_helpers_total_witness :
  let p := {| catacomb_ := catacomb.zero;
              config := doubles.mkConfig doubles.okGetter doubles.okBroker
                          (doubles.lifeGetter []);
              appWorkers := None |} in
  registry p !! "app1" = None /\
  appWorkers p = None /\
  getApplicationWorker p "app1" = (None, false) /\
  deleteApplicationWorker p "app1" = p /\
  saveApplicationWorker p "app1" doubles.worker1
    = Some (set_appWorkers p (Some {["app1" := doubles.worker1]})).
Proof.
  intros p.
  destruct (registry_helpers_total p "app1" doubles.worker1) as (Habsent & Hzero & _).
  assert (Hno : registry p !! "app1" = None) by reflexivity.
  assert (Hnil : appWorkers p = None) by reflexivity.
  destruct (Habsent Hno) as [Hget Hdel].
  destruct (Hzero (or_introl Hnil)) as (_ & _ & Hsave).
  repeat split; assumption.
Defined.

(** ** Validation and start-up *)

Lemma missing_Validate (config : Config) :
  Validate config =
    match missing config with
    | name :: _ => Some (errors.NotValidf ("missing " +:+ name))
    | [] => None
    end.
Proof.
  destruct config as [[?|] [?|] [?|] [?|] [?|] [?|] [?|] [?|]]; reflexivity.
Qed.

(** C4. [NewWorker] fails fast on an incomplete config: when a field is
    nil it returns a nil worker and the traced NotValid error that names
    the first nil field, so no provisioner exists and no task runs; when
    no field is nil, [Validate] returns nil and [NewWorker] returns the
    provisioner, with no error, its catacomb having started the loop task
    and its registry still nil. *)
Theorem NewWorker_fails_fast (cfg : Config) :
  (forall name rest, missing cfg = name :: rest ->
     Validate cfg = Some (errors.NotValidf ("missing " +:+ name)) /\
     NewWorker cfg
       = (None, Some (errors.Trace (errors.NotValidf ("missing " +:+ name)))) /\
     errors.IsNotValid (snd (NewWorker cfg)) = true /\
     errors.Message (errors.Trace (errors.NotValidf ("missing " +:+ name)))
       = "missing " +:+ name +:+ " not valid") /\
  (missing cfg = [] ->
     Validate cfg = None /\
     exists p, NewWorker cfg = (Some p, None) /\
               catacomb.started (catacomb_ p) = true /\
               catacomb.finished (catacomb_ p) = false /\
               config p = cfg /\
               appWorkers p = None).
Proof.
  split.
  - intros name rest Hmiss.
    assert (Hv : Validate cfg = Some (errors.NotValidf ("missing " +:+ name))).
    { rewrite missing_Validate, Hmiss. reflexivity. }
    unfold NewWorker. rewrite Hv. simpl.
    repeat split; reflexivity.
  - intros Hmiss.
    assert (Hv : Validate cfg = None).
    { rewrite missing_Validate, Hmiss. reflexivity. }
    split; [exact Hv|].
    unfold NewWorker. rewrite Hv. simpl. eexists. repeat split.
Qed.

Lemma NewWorker_fails_fast_witness :
  let bad := {| ApplicationGetter := Some doubles.okGetter;
                ApplicationUpdater := doubles.other;
                ServiceBroker := doubles.other;
                ContainerBroker := None;
                PodSpecGetter := doubles.other;
                LifeGetter := None;
                UnitGetter := doubles.other;
                UnitUpdater := doubles.other |} in
  let good := doubles.mkConfig doubles.okGetter doubles.okBroker
                (doubles.lifeGetter []) in
  NewWorker bad
    = (None, Some (errors.Trace (errors.NotValidf "missing ContainerBroker"))) /\
  Validate good = None.
Proof.
  intros bad good. split.
  - destruct (NewWorker_fails_fast bad) as [Hbad _].
    destruct (Hbad "ContainerBroker" ["LifeGetter"] eq_refl) as (_ & Hnew & _).
    exact Hnew.
  - destruct (NewWorker_fails_fast good) as [_ Hgood].
    destruct (Hgood eq_refl) as [Hv _]. exact Hv.
Defined.

(** ** One name of a batch *)

Lemma after_app s evs evs' : after (after s evs) evs' = after s (evs ++ evs').
Proof. unfold after; simpl. by rewrite <- app_assoc. Qed.

Lemma removeApplication_run rt appId s cb :
  ContainerBroker (config (prov s)) = Some cb ->
  removeApplication rt appId s =
    match UnexposeService cb (history s) appId with
    | Some e1 => (Return (errors.Trace e1), after s [EUnexposeService appId])
    | None =>
        match DeleteService cb (history s ++ [EUnexposeService appId]) appId with
        | Some e2 =>
            (Return (errors.Trace e2),
             after s [EUnexposeService appId; EDeleteService appId])
        | None =>
            match registry (prov s) !! appId with
            | None =>
                (Next tt, after s [EUnexposeService appId; EDeleteService appId])
            | Some w =>
                let h := history s ++ [EUnexposeService appId; EDeleteService appId] in
                (Next tt,
                 {| prov := deleteApplicationWorker (prov s) appId;
                    history := h ++ handshakeEvents rt appId h w;
                    chans := chans s |})
            end
        end
    end.
Proof.
  intros Hcb. unfold_body. rewrite Hcb. simpl.
  destruct (UnexposeService cb (history s) appId) as [e1|]; simpl; [done|].
  rewrite Hcb.
  destruct (DeleteService cb _ appId) as [e2|]; simpl; [by state_eq|].
  rewrite getApplicationWorker_lookup.
  destruct (registry (prov s) !! appId) as [w|]; simpl; [|by state_eq].
  unfold handshakeEvents. state_eq.
  destruct (removalRace rt _ w); state_eq;
    destruct (workerStop rt _ w); by state_eq.
Qed.

Lemma saveApplicationWorker_saved p appName aw :
  saveApplicationWorker p appName aw = Some (saved p appName aw).
Proof.
  unfold saveApplicationWorker, saved, registry.
  destruct (appWorkers p); reflexivity.
Qed.

Lemma startApplication_run rt appId s ag :
  ApplicationGetter (config (prov s)) = Some ag ->
  startApplication rt appId s =
    let r := ApplicationConfig ag (history s) appId in
    match snd r with
    | Some e => (Return (errors.Trace e), after s [EApplicationConfig appId])
    | None =>
        let w := built s appId (fst r) in
        let evs := [EApplicationConfig appId; EMakeChan (chans s);
                    ENewApplicationWorker appId (chans s) (jujuManagedUnits w)] in
        match newApplicationWorkerError rt
                (history s ++ [EApplicationConfig appId; EMakeChan (chans s)]) appId with
        | Some e =>
            (Return (errors.Trace e),
             {| prov := prov s; history := history s ++ evs; chans := S (chans s) |})
        | None =>
            (Next tt,
             {| prov := saved (prov s) appId w;
                history := history s ++ evs ++ [ECatacombAdd (AppWorker w)];
                chans := S (chans s) |})
        end
    end.
Proof.
  intros Hag. unfold_body. rewrite Hag. simpl.
  destruct (ApplicationConfig ag (history s) appId) as [cfg [e|]]; simpl; [done|].
  state_eq.
  destruct (newApplicationWorkerError rt _ appId) as [e|]; simpl; [done|].
  rewrite saveApplicationWorker_saved. by state_eq.
Qed.

Lemma handleApp_run rt appId s lg :
  LifeGetter (config (prov s)) = Some lg ->
  handleApp rt appId s =
    let r := Life lg (history s) appId in
    let s1 := after s [ELife appId] in
    if errors.IsNotFound (snd r) then removeApplication rt appId s1
    else match snd r with
         | Some e => (Return (errors.Trace e), s1)
         | None =>
             match registry (prov s) !! appId with
             | Some _ => (Next tt, s1)
             | None =>
                 if life.eqb (fst r) life.Dead then (Next tt, s1)
                 else startApplication rt appId s1
             end
         end.
Proof.
  intros Hlg. unfold handleApp, bind, deref, call, returnIfError, lookupWorker, ret.
  rewrite Hlg. simpl.
  destruct (Life lg (history s) appId) as [l [e|]]; simpl.
  - destruct (errors.kind_of e); reflexivity.
  - rewrite getApplicationWorker_lookup.
    destruct (registry (prov s) !! appId); simpl; [reflexivity|].
    destruct (life.eqb l life.Dead); reflexivity.
Qed.

Lemma handleApps_app rt pre post s :
  handleApps rt (pre ++ post) s =
    match handleApps rt pre s with
    | (Next _, s') => handleApps rt post s'
    | other => other
    end.
Proof.
  revert s. induction pre as [|a pre IH]; intros s; simpl; [done|].
  unfold bind. destruct (handleApp rt a s) as [[[]|e|msg] s']; [|done..].
  apply IH.
Qed.

(** An error returned while handling a name is what the loop returns. *)
Lemma error_leaves_loop rt s0 pre appId post s rest e s' :
  Reaches rt s0 pre appId post s ->
  handleApp rt appId s = (Return e, s') ->
  selectLoop rt (SelChanges (pre ++ appId :: post) :: rest) s0 = (Returned e, s').
Proof.
  unfold Reaches. intros Hpre Hstep. simpl.
  rewrite handleApps_app, Hpre. simpl. unfold bind. by rewrite Hstep.
Qed.

Lemma step_aborts rt appId s e s' :
  handleApp rt appId s = (Return (errors.Trace e), s') -> prov s' = prov s ->
  AbortsWith rt appId s e s'.
Proof.
  intros Hstep Hprov. split; [exact Hstep|]. split; [exact Hprov|].
  intros s0 pre post rest Hreach.
  exact (error_leaves_loop _ _ _ _ _ _ rest _ _ Hreach Hstep).
Qed.

(** C1. When Life reports NotFound for a name, the loop calls
    UnexposeService for it, then DeleteService, each once, whether or not
    the name has a worker; if either call returns an error, nothing more
    is done for the name and the loop returns that error, traced. *)
Theorem notfound_unexpose_then_delete rt appId s lg cb :
  LifeGetter (config (prov s)) = Some lg ->
  ContainerBroker (config (prov s)) = Some cb ->
  errors.IsNotFound (snd (Life lg (history s) appId)) = true ->
  let h1 := history s ++ [ELife appId] in
  let h2 := h1 ++ [EUnexposeService appId] in
  match UnexposeService cb h1 appId with
  | Some e1 =>
      AbortsWith rt appId s e1 (after s [ELife appId; EUnexposeService appId])
  | None =>
      match DeleteService cb h2 appId with
      | Some e2 =>
          AbortsWith rt appId s e2
            (after s [ELife appId; EUnexposeService appId; EDeleteService appId])
      | None =>
          exists rest,
            fst (handleApp rt appId s) = Next tt /\
            history (snd (handleApp rt appId s))
              = history s ++ [ELife appId; EUnexposeService appId;
                              EDeleteService appId] ++ rest /\
            Forall (fun e => isBrokerCall e = false) rest
      end
  end.
Proof.
  intros Hlg Hcb Hnf h1 h2.
  assert (Hrun : handleApp rt appId s = removeApplication rt appId (after s [ELife appId])).
  { rewrite (handleApp_run _ _ _ _ Hlg). simpl. by rewrite Hnf. }
  rewrite (removeApplication_run _ _ _ cb) in Hrun by exact Hcb.
  simpl in Hrun. fold h1 in Hrun.
  destruct (UnexposeService cb h1 appId) as [e1|].
  { rewrite after_app in Hrun. by apply step_aborts. }
  fold h2 in Hrun. destruct (DeleteService cb h2 appId) as [e2|].
  { rewrite after_app in Hrun. by apply step_aborts. }
  rewrite Hrun. destruct (registry (prov s) !! appId) as [w|]; simpl.
  - eexists. split; [reflexivity|]. split.
    + unfold h1. rewrite <- !app_assoc. simpl. reflexivity.
    + unfold handshakeEvents.
      destruct (removalRace rt _ w); destruct (workerStop rt _ w);
        repeat constructor.
  - exists []. split; [reflexivity|]. split; [|constructor].
    unfold h1. by rewrite <- !app_assoc.
Qed.

Lemma notfound_unexpose_then_delete_witness :
  let s := start (doubles.fresh (doubles.mkConfig doubles.okGetter doubles.okBroker
                    (doubles.lifeGetter [(life.Dead, doubles.gone)]))) in
  exists rest,
    fst (handleApp doubles.quiet "app1" s) = Next tt /\
    history (snd (handleApp doubles.quiet "app1" s))
      = history s ++ [ELife "app1"; EUnexposeService "app1";
                      EDeleteService "app1"] ++ rest /\
    Forall (fun e => isBrokerCall e = false) rest.
Proof.
  intros s.
  exact (notfound_unexpose_then_delete doubles.quiet "app1" s _ _
           eq_refl eq_refl eq_refl).
Defined.

(** ** Removal channels are signalled at most once *)

Lemma signals_app c h h' : signals c (h ++ h') = signals c h + signals c h'.
Proof. induction h as [|e h IH]; simpl; [done|]. rewrite IH. lia. Qed.

Lemma made_app h h' : made (h ++ h') = made h ++ made h'.
Proof.
  induction h as [|e h IH]; simpl; [done|].
  destruct e; simpl; by rewrite ?IH.
Qed.

Lemma quiet_signals c evs : forallb quietEvent evs = true -> signals c evs = 0.
Proof.
  induction evs as [|e evs IH]; simpl; [done|].
  intros [He Hevs]%andb_prop. rewrite (IH Hevs). by destruct e.
Qed.

Lemma quiet_made evs : forallb quietEvent evs = true -> made evs = [].
Proof.
  induction evs as [|e evs IH]; simpl; [done|].
  intros [He Hevs]%andb_prop. destruct e; simpl in *; auto; discriminate.
Qed.

Lemma ChannelsInv_quiet s p evs :
  ChannelsInv s -> registry p = registry (prov s) ->
  forallb quietEvent evs = true ->
  ChannelsInv {| prov := p; history := history s ++ evs; chans := chans s |}.
Proof.
  intros [Hreg Hdis Honce Hun Hmade] Hp Hq.
  split; simpl; try rewrite Hp.
  - intros a w Hw. rewrite signals_app, (quiet_signals _ _ Hq), Nat.add_0_r. eauto.
  - exact Hdis.
  - intros c. rewrite signals_app, (quiet_signals _ _ Hq), Nat.add_0_r. eauto.
  - intros c Hc. rewrite signals_app, (quiet_signals _ _ Hq), Nat.add_0_r. eauto.
  - by rewrite made_app, (quiet_made _ Hq), app_nil_r.
Qed.

Lemma handshakeEvents_signals rt appId h w c :
  signals c (handshakeEvents rt appId h w) = if Nat.eqb c (appRemoved w) then 1 else 0.
Proof.
  unfold handshakeEvents.
  destruct (removalRace rt h w); simpl;
    destruct (workerStop rt _ w); simpl; destruct (Nat.eqb c (appRemoved w)); reflexivity.
Qed.

Lemma handshakeEvents_made rt appId h w : made (handshakeEvents rt appId h w) = [].
Proof.
  unfold handshakeEvents.
  destruct (removalRace rt h w); simpl; destruct (workerStop rt _ w); reflexivity.
Qed.

Lemma ChannelsInv_handshake rt s appId w pre :
  ChannelsInv s -> registry (prov s) !! appId = Some w ->
  forallb quietEvent pre = true ->
  ChannelsInv {| prov := deleteApplicationWorker (prov s) appId;
                 history := (history s ++ pre)
                            ++ handshakeEvents rt appId (history s ++ pre) w;
                 chans := chans s |}.
Proof.
  intros [Hreg Hdis Honce Hun Hmade] Hw Hq.
  assert (Hsig : forall c, signals c ((history s ++ pre)
                     ++ handshakeEvents rt appId (history s ++ pre) w)
                   = signals c (history s) + if Nat.eqb c (appRemoved w) then 1 else 0).
  { intros c. rewrite !signals_app, (quiet_signals _ _ Hq), handshakeEvents_signals. lia. }
  split; simpl; try rewrite deleteApplicationWorker_registry.
  - intros a w' Hw'. apply lookup_delete_Some in Hw' as [Hne Hw'].
    destruct (Hreg _ _ Hw') as [Hlt Hzero]. split; [done|].
    rewrite Hsig, Hzero.
    destruct (Nat.eqb_spec (appRemoved w') (appRemoved w)) as [Heq|]; [|done].
    destruct Hne. exact (Hdis _ _ _ _ Hw Hw' (eq_sym Heq)).
  - intros a b w1 w2 [_ H1]%lookup_delete_Some [_ H2]%lookup_delete_Some. eauto.
  - intros c. rewrite Hsig.
    destruct (Nat.eqb_spec c (appRemoved w)) as [->|]; [|specialize (Honce c); lia].
    destruct (Hreg _ _ Hw) as [_ ->]. lia.
  - intros c Hc. rewrite Hsig, (Hun c Hc).
    destruct (Nat.eqb_spec c (appRemoved w)) as [->|]; [|done].
    destruct (Hreg _ _ Hw). lia.
  - by rewrite !made_app, (quiet_made _ Hq), handshakeEvents_made, !app_nil_r.
Qed.

Lemma ChannelsInv_made s p' appId evs :
  ChannelsInv s ->
  (forall a w, registry p' !! a = Some w ->
     registry (prov s) !! a = Some w \/ (a = appId /\ appRemoved w = chans s)) ->
  (forall c, signals c evs = 0) -> made evs = [chans s] ->
  ChannelsInv {| prov := p'; history := history s ++ evs; chans := S (chans s) |}.
Proof.
  intros [Hreg Hdis Honce Hun Hmade] Hp Hq Hm.
  split; simpl.
  - intros a w [Hw|[_ Hw]]%Hp; rewrite signals_app, Hq, Nat.add_0_r.
    + destruct (Hreg _ _ Hw). split; [lia|done].
    + rewrite Hw. split; [lia|]. by apply Hun.
  - intros a b w w' [Hw|[-> Hw]]%Hp [Hw'|[-> Hw']]%Hp Heq; [eauto| | |done].
    + destruct (Hreg _ _ Hw). lia.
    + destruct (Hreg _ _ Hw'). lia.
  - intros c. rewrite signals_app, Hq, Nat.add_0_r. done.
  - intros c Hc. rewrite signals_app, Hq, Nat.add_0_r. apply Hun. lia.
  - rewrite made_app, Hmade, Hm. exact (eq_sym (seq_S (chans s) 0)).
Qed.

Lemma removeApplication_inv rt appId s :
  ChannelsInv s -> ChannelsInv (snd (removeApplication rt appId s)).
Proof.
  intros Hinv.
  destruct (ContainerBroker (config (prov s))) as [cb|] eqn:Hcb.
  2: { unfold removeApplication, bind, deref. by rewrite Hcb. }
  rewrite (removeApplication_run _ _ _ _ Hcb).
  destruct (UnexposeService cb _ appId); simpl.
  { by apply ChannelsInv_quiet. }
  destruct (DeleteService cb _ appId); simpl.
  { by apply ChannelsInv_quiet. }
  destruct (registry (prov s) !! appId) as [w|] eqn:Hw; simpl.
  - by apply ChannelsInv_handshake.
  - by apply ChannelsInv_quiet.
Qed.

Lemma saved_lookup p appId w a w' :
  registry (saved p appId w) !! a = Some w' ->
  registry p !! a = Some w' \/ (a = appId /\ w' = w).
Proof.
  unfold saved, registry at 1. simpl.
  intros [[-> ->]|[_ H]]%lookup_insert_Some; auto.
Qed.

Lemma startApplication_inv rt appId s :
  ChannelsInv s -> ChannelsInv (snd (startApplication rt appId s)).
Proof.
  intros Hinv.
  destruct (ApplicationGetter (config (prov s))) as [ag|] eqn:Hag.
  2: { unfold startApplication, bind, deref. by rewrite Hag. }
  rewrite (startApplication_run _ _ _ _ Hag). simpl.
  destruct (snd (ApplicationConfig ag (history s) appId)); simpl.
  { by apply ChannelsInv_quiet. }
  destruct (newApplicationWorkerError rt _ appId); simpl.
  - apply (ChannelsInv_made s (prov s) appId); auto.
  - apply (ChannelsInv_made s _ appId); auto.
    intros a w [Hw|[-> ->]]%saved_lookup; auto.
Qed.

Lemma handleApp_inv rt appId s :
  ChannelsInv s -> ChannelsInv (snd (handleApp rt appId s)).
Proof.
  intros Hinv.
  destruct (LifeGetter (config (prov s))) as [lg|] eqn:Hlg.
  2: { unfold handleApp, bind, deref. by rewrite Hlg. }
  rewrite (handleApp_run _ _ _ _ Hlg). simpl.
  assert (Hlife : ChannelsInv (after s [ELife appId])) by by apply ChannelsInv_quiet.
  destruct (errors.IsNotFound _); [by apply removeApplication_inv|].
  destruct (snd (Life lg (history s) appId)); [done|].
  destruct (registry (prov s) !! appId); [done|].
  destruct (life.eqb _ _); [done|]. by apply startApplication_inv.
Qed.

Lemma handleApps_inv rt apps s :
  ChannelsInv s -> ChannelsInv (snd (handleApps rt apps s)).
Proof.
  revert s. induction apps as [|a apps IH]; intros s Hinv; simpl; [done|].
  unfold bind. pose proof (handleApp_inv rt a s Hinv) as Hstep.
  destruct (handleApp rt a s) as [[[]|e|msg] s']; simpl in *; auto.
Qed.

Lemma selectLoop_inv rt script s :
  ChannelsInv s -> ChannelsInv (snd (selectLoop rt script s)).
Proof.
  revert s. induction script as [|sel script IH]; intros s Hinv; simpl; [done|].
  destruct sel as [|apps|]; simpl.
  - done.
  - assert (Hrecv : ChannelsInv (record s (EChanges apps))) by by apply ChannelsInv_quiet.
    pose proof (handleApps_inv rt apps _ Hrecv) as Hbatch.
    destruct (handleApps rt apps _) as [[[]|e|msg] s']; simpl in *; auto.
  - by apply ChannelsInv_quiet.
Qed.

Lemma watch_inv rt s : ChannelsInv s -> ChannelsInv (snd (watch rt s)).
Proof.
  intros Hinv. unfold watch, bind, deref, call, returnIfError.
  destruct (ApplicationGetter (config (prov s))) as [ag|]; simpl; [|done].
  destruct (snd (WatchApplications ag (history s))); simpl.
  { by apply ChannelsInv_quiet. }
  assert (Hq : ChannelsInv (record (record s EWatchApplications)
            (ECatacombAdd (WatcherWorker (fst (WatchApplications ag (history s))))))).
  { unfold record; simpl. rewrite <- app_assoc. by apply ChannelsInv_quiet. }
  by destruct (catacombAdd rt _ _).
Qed.

Lemma loop_inv rt script s : ChannelsInv s -> ChannelsInv (snd (loop rt script s)).
Proof.
  intros Hinv. unfold loop. pose proof (watch_inv rt s Hinv) as Hw.
  destruct (watch rt s) as [[[]|e|msg] s']; simpl in *; auto.
  by apply selectLoop_inv.
Qed.

Lemma start_inv p : registry p = ∅ -> ChannelsInv (start p).
Proof.
  intros Hp. split; simpl; try rewrite Hp; try done; intros; lia.
Qed.

(** C2. When the name Life reports NotFound for has a worker, the root
    first resolves the removal race: it sends on the worker's removal
    channel, or, if the worker's death signal wins, closes that channel
    instead, so the history gains exactly one of the two; only then does
    it stop the worker; an error from the stop is logged and the loop goes
    on; and the name leaves the registry whatever the stop returned.  Over
    a whole run of the loop no removal channel is sent on or closed more
    than once. *)
Theorem removal_handshake :
  (forall rt appId s lg cb w,
     LifeGetter (config (prov s)) = Some lg ->
     ContainerBroker (config (prov s)) = Some cb ->
     errors.IsNotFound (snd (Life lg (history s) appId)) = true ->
     UnexposeService cb (history s ++ [ELife appId]) appId = None ->
     DeleteService cb (history s ++ [ELife appId; EUnexposeService appId]) appId = None ->
     registry (prov s) !! appId = Some w ->
     let h := history s ++ [ELife appId; EUnexposeService appId; EDeleteService appId] in
     let signal := match removalRace rt h w with
                   | SendAccepted => ESend (appRemoved w)
                   | WorkerDying => EClose (appRemoved w)
                   end in
     let logged := match workerStop rt (h ++ [signal]) w with
                   | Some e => [ELogErrorf (stopMessage appId e)]
                   | None => []
                   end in
     handleApp rt appId s
       = (Next tt, {| prov := deleteApplicationWorker (prov s) appId;
                      history := h ++ [signal; EStop w] ++ logged;
                      chans := chans s |}) /\
     signals (appRemoved w) ([signal; EStop w] ++ logged) = 1 /\
     registry (deleteApplicationWorker (prov s) appId) !! appId = None) /\
  (forall rt script p c,
     registry p = ∅ ->
     signals c (history (snd (loop rt script (start p)))) <= 1).
Proof.
  split.
  - intros rt appId s lg cb w Hlg Hcb Hnf Hun Hdel Hw h signal logged.
    split; [|split].
    + rewrite (handleApp_run _ _ _ _ Hlg). simpl. rewrite Hnf.
      rewrite (removeApplication_run _ _ _ cb) by exact Hcb. simpl.
      rewrite Hun. rewrite <- app_assoc. simpl. rewrite Hdel, Hw. simpl.
      unfold handshakeEvents, logged, signal, h.
      rewrite <- ?app_assoc. simpl. reflexivity.
    + unfold signal, logged. destruct (removalRace rt h w); simpl;
        rewrite Nat.eqb_refl; by destruct (workerStop rt _ w).
    + rewrite deleteApplicationWorker_registry. apply lookup_delete_eq.
  - intros rt script p c Hp.
    apply (inv_once _ (loop_inv rt script _ (start_inv p Hp))).
Qed.

Lemma removal_handshake_witness :
  let cfg := doubles.mkConfig doubles.okGetter doubles.okBroker
               (doubles.lifeGetter [(life.Dead, doubles.gone)]) in
  let rt := doubles.runtime None WorkerDying (Some doubles.boom) None in
  let s := {| prov := saved (doubles.fresh cfg) "app1" doubles.worker1;
              history := []; chans := 1 |} in
  handleApp rt "app1" s
    = (Next tt,
       {| prov := deleteApplicationWorker (prov s) "app1";
          history := [ELife "app1"; EUnexposeService "app1"; EDeleteService "app1";
                      EClose 0; EStop doubles.worker1;
                      ELogErrorf "stopping application worker for app1: boom"];
          chans := 1 |}) /\
  signals 0 (history (snd (loop rt [SelChanges ["app1"]]
                             (start (doubles.fresh cfg))))) <= 1.
Proof.
  intros cfg rt s. destruct removal_handshake as [Hstep Hrun]. split.
  - exact (proj1 (Hstep rt "app1" s _ _ doubles.worker1
                    eq_refl eq_refl eq_refl eq_refl eq_refl eq_refl)).
  - exact (Hrun rt [SelChanges ["app1"]] (start (doubles.fresh cfg)).(prov) 0 eq_refl).
Defined.

(** ** Starting workers *)

Lemma constructions_app a h h' :
  constructions a (h ++ h') = constructions a h + constructions a h'.
Proof. induction h as [|e h IH]; simpl; [done|]. rewrite IH. lia. Qed.

Lemma handleApp_skip rt appId s lg l :
  LifeGetter (config (prov s)) = Some lg ->
  Life lg (history s) appId = (l, None) ->
  is_Some (registry (prov s) !! appId) \/ l = life.Dead ->
  handleApp rt appId s = (Next tt, after s [ELife appId]).
Proof.
  intros Hlg Hlife Hskip.
  rewrite (handleApp_run _ _ _ _ Hlg), Hlife. simpl.
  destruct (registry (prov s) !! appId) as [w|]; [done|].
  destruct Hskip as [[? [=]]| ->]. done.
Qed.

(** C3, amended.  For a changed name whose Life query succeeds: if the
    name has a worker, or has none and is Dead, the loop only records the
    Life query (no config fetch, no construction, registry unchanged).  For
    a name without a worker whose Life is Alive, when the config fetch and
    the construction both succeed, exactly one worker is constructed and
    it is registered; handling the name again while it is registered
    constructs nothing; and a name that is Dead and has no worker still
    has none afterwards. *)
Theorem start_once_unless_dead rt appId s lg l :
  LifeGetter (config (prov s)) = Some lg ->
  Life lg (history s) appId = (l, None) ->
  (is_Some (registry (prov s) !! appId) \/ l = life.Dead ->
     handleApp rt appId s = (Next tt, after s [ELife appId])) /\
  (forall ag cfg,
     registry (prov s) !! appId = None -> l = life.Alive ->
     ApplicationGetter (config (prov s)) = Some ag ->
     ApplicationConfig ag (history s ++ [ELife appId]) appId = (cfg, None) ->
     newApplicationWorkerError rt
       (history s ++ [ELife appId; EApplicationConfig appId; EMakeChan (chans s)])
       appId = None ->
     let w := built s appId cfg in
     let s' := {| prov := saved (prov s) appId w;
                  history := history s ++
                    [ELife appId; EApplicationConfig appId; EMakeChan (chans s);
                     ENewApplicationWorker appId (chans s) (jujuManagedUnits w);
                     ECatacombAdd (AppWorker w)];
                  chans := S (chans s) |} in
     handleApp rt appId s = (Next tt, s') /\
     constructions appId (history s') = S (constructions appId (history s)) /\
     registry (prov s') !! appId = Some w /\
     (forall l', Life lg (history s') appId = (l', None) ->
        handleApp rt appId s' = (Next tt, after s' [ELife appId]))) /\
  (registry (prov s) !! appId = None -> l = life.Dead ->
     registry (prov (snd (handleApp rt appId s))) !! appId = None).
Proof.
  intros Hlg Hlife. split; [|split].
  - exact (handleApp_skip rt appId s lg l Hlg Hlife).
  - intros ag cfg Hno -> Hag Hcfg Hnew w s'.
    assert (Hreg : registry (prov s') !! appId = Some w).
    { unfold s', saved, registry; simpl. apply lookup_insert_eq. }
    split; [|split; [|split]].
    + rewrite (handleApp_run _ _ _ _ Hlg), Hlife. simpl. rewrite Hno.
      rewrite (startApplication_run _ _ _ ag) by exact Hag. simpl.
      rewrite Hcfg. simpl. rewrite <- app_assoc. simpl. rewrite Hnew.
      unfold s'. rewrite <- ?app_assoc. reflexivity.
    + unfold s'; simpl. rewrite constructions_app. simpl.
      rewrite String.eqb_refl. lia.
    + exact Hreg.
    + intros l' Hlife'. apply (handleApp_skip _ _ _ lg l'); [exact Hlg|exact Hlife'|].
      left. rewrite Hreg. by eexists.
  - intros Hno ->. rewrite (handleApp_skip _ _ _ lg life.Dead); auto.
Qed.

Lemma start_once_unless_dead_witness :
  let cfg := doubles.mkConfig doubles.okGetter doubles.okBroker
               (doubles.lifeGetter [(life.Alive, None); (life.Alive, None)]) in
  let s := start (doubles.fresh cfg) in
  let s' := {| prov := saved (prov s) "app1" doubles.worker1;
               history := [ELife "app1"; EApplicationConfig "app1"; EMakeChan 0;
                           ENewApplicationWorker "app1" 0 true;
                           ECatacombAdd (AppWorker doubles.worker1)];
               chans := 1 |} in
  handleApp doubles.quiet "app1" s = (Next tt, s') /\
  handleApp doubles.quiet "app1" s' = (Next tt, after s' [ELife "app1"]).
Proof.
  intros cfg s s'.
  destruct (start_once_unless_dead doubles.quiet "app1" s _ life.Alive eq_refl eq_refl)
    as (_ & Hstart & _).
  destruct (Hstart _ _ eq_refl eq_refl eq_refl eq_refl eq_refl) as (H1 & _ & _ & H2).
  split; [exact H1 | exact (H2 life.Alive eq_refl)].
Defined.

(** C3 as stated fails: a name without a worker whose Life is Alive gets
    no worker when the config fetch returns an error. *)
Lemma alive_unregistered_not_always_started :
  ~ (forall rt appId s lg,
       LifeGetter (config (prov s)) = Some lg ->
       Life lg (history s) appId = (life.Alive, None) ->
       registry (prov s) !! appId = None ->
       constructions appId (history (snd (handleApp rt appId s)))
         = S (constructions appId (history s)) /\
       is_Some (registry (prov (snd (handleApp rt appId s))) !! appId)).
Proof.
  intros H.
  destruct (H doubles.quiet "app1"
              (start (doubles.fresh
                 (doubles.mkConfig (doubles.getter (∅, Some doubles.boom))
                    doubles.okBroker (doubles.lifeGetter [(life.Alive, None)]))))
              _ eq_refl eq_refl eq_refl) as [Hc _].
  vm_compute in Hc. discriminate.
Qed.

(** C10. If fetching the config or constructing the worker returns an
    error, handling the name returns that error, traced, and so does the
    loop; the provisioner, and with it the registry, is as it was before
    the name was handled. *)
Theorem failed_start_leaves_registry rt appId s lg ag l e :
  LifeGetter (config (prov s)) = Some lg ->
  ApplicationGetter (config (prov s)) = Some ag ->
  Life lg (history s) appId = (l, None) ->
  registry (prov s) !! appId = None ->
  l <> life.Dead ->
  let r := ApplicationConfig ag (history s ++ [ELife appId]) appId in
  let upto := [ELife appId; EApplicationConfig appId; EMakeChan (chans s)] in
  (snd r = Some e ->
     AbortsWith rt appId s e (after s [ELife appId; EApplicationConfig appId])) /\
  (snd r = None ->
   newApplicationWorkerError rt (history s ++ upto) appId = Some e ->
     AbortsWith rt appId s e
       {| prov := prov s;
          history := history s ++ upto ++
            [ENewApplicationWorker appId (chans s)
               (GetBool (fst r) caas.JujuManagedUnits false)];
          chans := S (chans s) |}).
Proof.
  intros Hlg Hag Hlife Hno Hl r upto.
  assert (Hrun : handleApp rt appId s = startApplication rt appId (after s [ELife appId])).
  { rewrite (handleApp_run _ _ _ _ Hlg), Hlife. simpl. rewrite Hno. by destruct l. }
  rewrite (startApplication_run _ _ _ ag) in Hrun by exact Hag.
  simpl in Hrun. fold r in Hrun. split.
  - intros Hcfg. apply step_aborts; [|done]. rewrite Hrun, Hcfg. by rewrite after_app.
  - intros Hcfg Hnew. apply step_aborts; [|done]. rewrite Hrun, Hcfg.
    rewrite <- app_assoc. simpl. unfold upto in Hnew. rewrite Hnew.
    unfold built, upto. simpl. by rewrite <- app_assoc.
Qed.

Lemma failed_start_leaves_registry_witness :
  let cfg := doubles.mkConfig (doubles.getter (∅, Some doubles.boom))
               doubles.okBroker (doubles.lifeGetter [(life.Alive, None)]) in
  let s0 := start (doubles.fresh cfg) in
  let s := record s0 (EChanges ["app1"]) in
  selectLoop doubles.quiet [SelChanges ["app1"]] s0
    = (Returned (errors.Trace doubles.boom),
       after s [ELife "app1"; EApplicationConfig "app1"]) /\
  prov (after s [ELife "app1"; EApplicationConfig "app1"]) = prov s.
Proof.
  intros cfg s0 s.
  assert (Halive : life.Alive <> life.Dead) by discriminate.
  destruct (failed_start_leaves_registry doubles.quiet "app1" s _ _ life.Alive
              doubles.boom eq_refl eq_refl eq_refl eq_refl Halive) as [Hcfg _].
  destruct (Hcfg eq_refl) as (_ & Hprov & Hloop).
  split; [exact (Hloop s0 [] [] [] eq_refl) | exact Hprov].
Defined.

(** ** Attaching workers to the catacomb *)

(** Whatever [catacomb.Add] answers for a new worker, the loop does the
    same with the name. *)
Lemma startApplication_ignores_attach rt add appId s :
  startApplication (withAdd rt add) appId s = startApplication rt appId s.
Proof.
  destruct (ApplicationGetter (config (prov s))) as [ag|] eqn:Hag.
  - by rewrite !(startApplication_run _ _ _ _ Hag).
  - unfold startApplication, bind, deref. by rewrite Hag.
Qed.

(** The watcher is attached with the error checked. *)
Lemma watcher_attach_error_returned rt s ag e :
  ApplicationGetter (config (prov s)) = Some ag ->
  snd (WatchApplications ag (history s)) = None ->
  catacombAdd rt (history s ++ [EWatchApplications])
    (WatcherWorker (fst (WatchApplications ag (history s)))) = Some e ->
  forall script, fst (loop rt script s) = Returned (errors.Trace e).
Proof.
  intros Hag Hw Hadd script. unfold loop, watch, bind, deref, call, returnIfError.
  rewrite Hag. simpl. rewrite Hw. simpl. by rewrite Hadd.
Qed.

(** C6, at the failing input.  The catacomb refuses both new workers; the
    loop drops the error: it neither returns nor logs it, both workers stay
    in the registry, and the loop goes on to the next name and then blocks
    in its select. *)
Theorem attach_error_is_dropped :
  let cfg := doubles.mkConfig doubles.okGetter doubles.okBroker
               (doubles.lifeGetter [(life.Alive, None); (life.Alive, None)]) in
  let r := run doubles.attachFails [SelChanges ["app1"; "app2"]] (doubles.fresh cfg) in
  catacombAdd doubles.attachFails [] (AppWorker doubles.worker1) = Some doubles.boom /\
  fst r = Blocked /\
  history (snd r)
    = [EWatchApplications; ECatacombAdd (WatcherWorker 0);
       EChanges ["app1"; "app2"];
       ELife "app1"; EApplicationConfig "app1"; EMakeChan 0;
       ENewApplicationWorker "app1" 0 true; ECatacombAdd (AppWorker doubles.worker1);
       ELife "app2"; EApplicationConfig "app2"; EMakeChan 1;
       ENewApplicationWorker "app2" 1 true; ECatacombAdd (AppWorker doubles.worker2)] /\
  registry (prov (snd r)) !! "app1" = Some doubles.worker1 /\
  registry (prov (snd r)) !! "app2" = Some doubles.worker2.
Proof. vm_compute. repeat split. Qed.

(** ** The loop as a whole *)

Lemma selectLoop_app rt pre rest s :
  selectLoop rt (pre ++ rest) s =
    match selectLoop rt pre s with
    | (Blocked, s') => selectLoop rt rest s'
    | other => other
    end.
Proof.
  revert s. induction pre as [|sel pre IH]; intros s; simpl; [done|].
  destruct sel as [|apps|]; [done| |done].
  destruct (handleApps rt apps _) as [[[]|e|msg] s']; [apply IH|done..].
Qed.

Lemma loop_app rt pre rest s s' :
  loop rt pre s = (Blocked, s') ->
  loop rt (pre ++ rest) s = selectLoop rt rest s'.
Proof.
  unfold loop. destruct (watch rt s) as [[[]|e|msg] s1]; [|done..].
  intros Hpre. by rewrite selectLoop_app, Hpre.
Qed.

(** Handling names leaves the catacomb and the config alone. *)
Lemma removeApplication_frame rt appId s :
  catacomb_ (prov (snd (removeApplication rt appId s))) = catacomb_ (prov s) /\
  config (prov (snd (removeApplication rt appId s))) = config (prov s).
Proof.
  destruct (ContainerBroker (config (prov s))) as [cb|] eqn:Hcb.
  2: { unfold removeApplication, bind, deref. by rewrite Hcb. }
  rewrite (removeApplication_run _ _ _ _ Hcb).
  destruct (UnexposeService cb _ appId); [done|].
  destruct (DeleteService cb _ appId); [done|].
  by destruct (registry (prov s) !! appId).
Qed.

Lemma startApplication_frame rt appId s :
  catacomb_ (prov (snd (startApplication rt appId s))) = catacomb_ (prov s) /\
  config (prov (snd (startApplication rt appId s))) = config (prov s).
Proof.
  destruct (ApplicationGetter (config (prov s))) as [ag|] eqn:Hag.
  2: { unfold startApplication, bind, deref. by rewrite Hag. }
  rewrite (startApplication_run _ _ _ _ Hag). simpl.
  destruct (snd (ApplicationConfig ag (history s) appId)); [done|].
  by destruct (newApplicationWorkerError rt _ appId).
Qed.

Lemma handleApp_frame rt appId s :
  catacomb_ (prov (snd (handleApp rt appId s))) = catacomb_ (prov s) /\
  config (prov (snd (handleApp rt appId s))) = config (prov s).
Proof.
  destruct (LifeGetter (config (prov s))) as [lg|] eqn:Hlg.
  2: { unfold handleApp, bind, deref. by rewrite Hlg. }
  rewrite (handleApp_run _ _ _ _ Hlg). simpl.
  destruct (errors.IsNotFound _).
  { apply (removeApplication_frame rt appId (after s [ELife appId])). }
  destruct (snd (Life lg (history s) appId)); [done|].
  destruct (registry (prov s) !! appId); [done|].
  destruct (life.eqb _ _); [done|].
  apply (startApplication_frame rt appId (after s [ELife appId])).
Qed.

Lemma handleApps_frame rt apps s :
  catacomb_ (prov (snd (handleApps rt apps s))) = catacomb_ (prov s) /\
  config (prov (snd (handleApps rt apps s))) = config (prov s).
Proof.
  revert s. induction apps as [|a apps IH]; intros s; simpl; [done|].
  unfold bind. pose proof (handleApp_frame rt a s) as [Hc Hcfg].
  destruct (handleApp rt a s) as [[[]|e|msg] s']; simpl in *; [|done..].
  destruct (IH s') as [-> ->]. done.
Qed.

Lemma selectLoop_blocked_catacomb rt script s s' :
  selectLoop rt script s = (Blocked, s') ->
  catacomb_ (prov s') = catacomb_ (prov s).
Proof.
  revert s. induction script as [|sel script IH]; intros s; simpl.
  { by intros [= ->]. }
  destruct sel as [|apps|]; [done| |done].
  pose proof (handleApps_frame rt apps (record s (EChanges apps))) as [Hbatch _].
  destruct (handleApps rt apps _) as [[[]|e|msg] s1]; [|done..].
  intros Hrest. rewrite (IH _ Hrest). exact Hbatch.
Qed.

Lemma watch_frame rt s :
  catacomb_ (prov (snd (watch rt s))) = catacomb_ (prov s) /\
  config (prov (snd (watch rt s))) = config (prov s).
Proof.
  unfold watch, bind, deref, call, returnIfError.
  destruct (ApplicationGetter (config (prov s))) as [ag|]; simpl; [|done].
  destruct (snd (WatchApplications ag (history s))); simpl; [done|].
  by destruct (catacombAdd rt _ _).
Qed.

Lemma loop_blocked_catacomb rt script s s' :
  loop rt script s = (Blocked, s') -> catacomb_ (prov s') = catacomb_ (prov s).
Proof.
  unfold loop. pose proof (watch_frame rt s) as [Hw _].
  destruct (watch rt s) as [[[]|e|msg] s1]; [|done..].
  intros Hloop. rewrite (selectLoop_blocked_catacomb _ _ _ _ Hloop). exact Hw.
Qed.

(** With the config [NewWorker] accepts, the loop never calls a method on
    a nil field of the config, and the registry helpers never panic. *)
Lemma Validate_complete cfg :
  Validate cfg = None ->
  exists ag cb lg, ApplicationGetter cfg = Some ag /\
                   ContainerBroker cfg = Some cb /\ LifeGetter cfg = Some lg.
Proof.
  destruct cfg as [[?|] [?|] [?|] [?|] [?|] [?|] [?|] [?|]]; try discriminate.
  intros _. simpl. do 3 eexists. repeat split.
Qed.

Lemma handleApp_no_panic rt appId s msg :
  Validate (config (prov s)) = None -> fst (handleApp rt appId s) <> Panic msg.
Proof.
  intros (ag & cb & lg & Hag & Hcb & Hlg)%Validate_complete.
  rewrite (handleApp_run _ _ _ _ Hlg). simpl.
  destruct (errors.IsNotFound _).
  { rewrite (removeApplication_run _ _ _ cb) by exact Hcb.
    destruct (UnexposeService cb _ appId); [done|].
    destruct (DeleteService cb _ appId); [done|].
    simpl. by destruct (registry (prov s) !! appId). }
  destruct (snd (Life lg (history s) appId)); [done|].
  destruct (registry (prov s) !! appId); [done|].
  destruct (life.eqb _ _); [done|].
  rewrite (startApplication_run _ _ _ ag) by exact Hag. simpl.
  destruct (snd (ApplicationConfig ag _ appId)); [done|].
  by destruct (newApplicationWorkerError rt _ appId).
Qed.

Lemma handleApps_no_panic rt apps s msg :
  Validate (config (prov s)) = None -> fst (handleApps rt apps s) <> Panic msg.
Proof.
  revert s. induction apps as [|a apps IH]; intros s Hv; simpl; [done|].
  unfold bind. pose proof (handleApp_no_panic rt a s msg Hv) as Hstep.
  pose proof (handleApp_frame rt a s) as [_ Hcfg].
  destruct (handleApp rt a s) as [[[]|e|msg'] s']; simpl in *; [|done..].
  apply IH. by rewrite Hcfg.
Qed.

Lemma selectLoop_no_panic rt script s msg :
  Validate (config (prov s)) = None -> fst (selectLoop rt script s) <> Panicked msg.
Proof.
  revert s. induction script as [|sel script IH]; intros s Hv; simpl; [done|].
  destruct sel as [|apps|]; [done| |done].
  pose proof (handleApps_no_panic rt apps (record s (EChanges apps)) msg Hv) as Hbatch.
  pose proof (handleApps_frame rt apps (record s (EChanges apps))) as [_ Hcfg].
  destruct (handleApps rt apps _) as [[[]|e|msg'] s']; simpl in *; [|done|congruence].
  apply IH. by rewrite Hcfg.
Qed.

Lemma loop_no_panic rt script cfg p msg :
  NewWorker cfg = (Some p, None) -> fst (run rt script p) <> Panicked msg.
Proof.
  intros Hnew. unfold NewWorker in Hnew.
  destruct (Validate cfg) eqn:Hv; [done|]. injection Hnew as <-.
  unfold run, loop.
  pose proof (watch_frame rt (start (set_catacomb
    {| catacomb_ := catacomb.zero; config := cfg; appWorkers := None |}
    (fst (catacomb.Invoke catacomb.zero))))) as [_ Hcfg].
  destruct (watch rt _) as [[[]|e|msg'] s'] eqn:Hw; simpl in *.
  - pose proof (selectLoop_no_panic rt script s' msg) as Hloop.
    rewrite Hcfg in Hloop. specialize (Hloop Hv).
    by destruct (selectLoop rt script s') as [[|e|msg'] s''].
  - done.
  - unfold watch, bind, deref, call, returnIfError in Hw. simpl in Hw.
    apply Validate_complete in Hv as (ag & _ & _ & Hag & _). rewrite Hag in Hw.
    simpl in Hw. destruct (snd (WatchApplications ag [])); simpl in Hw; [done|].
    by destruct (catacombAdd rt _ _).
Qed.

(** What the run leaves of the catacomb. *)
Lemma Kill_keeps_reason c r e :
  catacomb.reason c = Some e -> catacomb.reason (catacomb.Kill c r) = Some e.
Proof. unfold catacomb.Kill. simpl. by intros ->. Qed.

Lemma join_keeps_reason c last e :
  catacomb.reason c = Some e -> catacomb.reason (catacomb.join c last) = Some e.
Proof.
  unfold catacomb.join. simpl. generalize (catacomb.children c) as ws.
  intros ws. revert c. induction ws as [|w ws IH]; intros c Hc; simpl; [done|].
  apply IH. destruct (last w); [by apply Kill_keeps_reason|done].
Qed.

Lemma kills_without_error c rs :
  Forall (fun r => r = None) rs ->
  catacomb.reason (foldl catacomb.Kill c rs) = catacomb.reason c.
Proof.
  intros Hrs. revert c. induction Hrs as [|r rs -> _ IH]; intros c; simpl; [done|].
  rewrite IH. simpl. by destruct (catacomb.reason c).
Qed.

Lemma supervise_undisturbed rt out seen todo c :
  catacomb.reason c = None ->
  (forall n, Forall (fun r => r = None) (during out n)) ->
  (forall t1 w t2, todo = t1 ++ EStop w :: t2 -> workerStop rt (seen ++ t1) w = None) ->
  catacomb.reason (supervise rt out seen todo c) = None.
Proof.
  revert seen c. induction todo as [|e todo IH]; intros seen c Hc Hout Hstops; simpl.
  { by rewrite kills_without_error. }
  apply IH; [|done|].
  - assert (Hk : catacomb.reason (foldl catacomb.Kill c (during out (length seen))) = None).
    { by rewrite kills_without_error. }
    destruct e; simpl; try done.
    + by destruct (catacombAdd rt seen w).
    + destruct (decide _); [|done].
      pose proof (Hstops [] w todo eq_refl) as Hstop.
      rewrite app_nil_r in Hstop. by rewrite Hstop.
  - intros t1 w t2 ->. rewrite <- app_assoc. by apply (Hstops (e :: t1) w t2).
Qed.

(** C5, amended.  When the select finds the change channel closed, the
    loop returns the error "watcher closed channel".  [Wait] then returns
    the first error the catacomb was killed with: an error that reached it
    before the loop returned (that of an attached worker whose stop
    returned an error, or one from outside the loop), and "watcher closed
    channel" when there is none, as when no stop failed and no error came
    from outside. *)
Theorem closed_channel_error_and_wait rt out cfg p pre rest s :
  NewWorker cfg = (Some p, None) ->
  loop rt pre (start p) = (Blocked, s) ->
  let closed := errors.New "watcher closed channel" in
  let before := supervise rt out [] (history s ++ [EChangesClosed]) (catacomb_ p) in
  (forall s1, selectLoop rt (SelClosed :: rest) s1
     = (Returned closed, record s1 EChangesClosed)) /\
  loop rt (pre ++ SelClosed :: rest) (start p)
    = (Returned closed, record s EChangesClosed) /\
  fst (runSupervised rt out (pre ++ SelClosed :: rest) p) = Returned closed /\
  Wait (prov (snd (runSupervised rt out (pre ++ SelClosed :: rest) p)))
    = Some (Some (match catacomb.reason before with
                  | Some earlier => earlier
                  | None => closed
                  end)) /\
  (Undisturbed rt out (history s ++ [EChangesClosed]) ->
   Wait (prov (snd (runSupervised rt out (pre ++ SelClosed :: rest) p)))
     = Some (Some closed)).
Proof.
  intros Hnew Hpre closed before.
  assert (Hloop : loop rt (pre ++ SelClosed :: rest) (start p)
    = (Returned closed, record s EChangesClosed)).
  { by rewrite (loop_app _ _ _ _ _ Hpre). }
  assert (Hwait : Wait (prov (snd (runSupervised rt out (pre ++ SelClosed :: rest) p)))
    = Some (Some (match catacomb.reason before with
                  | Some earlier => earlier
                  | None => closed
                  end))).
  { unfold runSupervised. rewrite Hloop. unfold record. cbn [fst snd history].
    fold before. unfold Wait, set_prov, set_catacomb. cbn [prov catacomb_].
    assert (Hret : catacomb.reason (catacomb.workReturned before closed)
              = Some (match catacomb.reason before with
                      | Some earlier => earlier
                      | None => closed
                      end)).
    { unfold catacomb.workReturned.
      destruct (decide (errors.Cause closed = catacomb.ErrDying)) as [Heq|_];
        [discriminate Heq|].
      simpl. by destruct (catacomb.reason before). }
    unfold catacomb.Wait.
    rewrite (join_keeps_reason _ _ _ Hret). reflexivity. }
  split; [done|]. split; [exact Hloop|]. split.
  { unfold runSupervised. by rewrite Hloop. }
  split; [exact Hwait|].
  intros [Hout Hstops]. rewrite Hwait.
  assert (Hzero : catacomb.reason (catacomb_ p) = None).
  { unfold NewWorker in Hnew. destruct (Validate cfg); [done|].
    by injection Hnew as <-. }
  assert (Hnone : catacomb.reason before = None).
  { apply supervise_undisturbed; [exact Hzero|exact Hout|].
    intros t1 w t2 Hsplit. exact (Hstops t1 w t2 Hsplit). }
  by rewrite Hnone.
Qed.

Lemma closed_channel_error_and_wait_witness :
  let cfg := doubles.mkConfig doubles.okGetter doubles.okBroker
               (doubles.lifeGetter [(life.Alive, None); (life.Dead, doubles.gone)]) in
  let script := [SelChanges ["app1"]; SelChanges ["app1"]; SelClosed] in
  Wait (prov (snd (runSupervised doubles.quiet doubles.calm script (doubles.fresh cfg))))
    = Some (Some (errors.New "watcher closed channel")) /\
  Wait (prov (snd (runSupervised doubles.stopFails doubles.calm script (doubles.fresh cfg))))
    = Some (Some doubles.boom).
Proof.
  intros cfg script. split.
  - refine (proj2 (proj2 (proj2 (proj2
      (closed_channel_error_and_wait doubles.quiet doubles.calm cfg (doubles.fresh cfg)
         [SelChanges ["app1"]; SelChanges ["app1"]] [] _ eq_refl eq_refl)))) _).
    split.
    + intros n. constructor.
    + intros t1 w t2 Hsplit. reflexivity.
  - exact (proj1 (proj2 (proj2 (proj2
      (closed_channel_error_and_wait doubles.stopFails doubles.calm cfg
         (doubles.fresh cfg) [SelChanges ["app1"]; SelChanges ["app1"]] [] _
         eq_refl eq_refl))))).
Defined.

(** C5 as stated fails: a worker is started and attached, its application
    is then removed and stopping it returns an error, which kills the
    catacomb; the change channel is closed afterwards, the loop returns
    "watcher closed channel", and [Wait] returns the worker's error. *)
Lemma wait_may_return_earlier_error :
  ~ (forall rt out cfg p pre rest s,
       NewWorker cfg = (Some p, None) ->
       loop rt pre (start p) = (Blocked, s) ->
       fst (runSupervised rt out (pre ++ SelClosed :: rest) p)
         = Returned (errors.New "watcher closed channel") /\
       Wait (prov (snd (runSupervised rt out (pre ++ SelClosed :: rest) p)))
         = Some (Some (errors.New "watcher closed channel"))).
Proof.
  intros H.
  destruct (H doubles.stopFails doubles.calm
              (doubles.mkConfig doubles.okGetter doubles.okBroker
                 (doubles.lifeGetter [(life.Alive, None); (life.Dead, doubles.gone)]))
              _ [SelChanges ["app1"]; SelChanges ["app1"]] [] _ eq_refl eq_refl)
    as [_ Hwait].
  vm_compute in Hwait. discriminate.
Qed.

(** ** Every way of handling a name *)

Lemma removeApplication_cases rt appId s o s' :
  removeApplication rt appId (after s [ELife appId]) = (o, s') ->
  HandleCase rt appId s o s'.
Proof.
  destruct (ContainerBroker (config (prov s))) as [cb|] eqn:Hcb.
  2: { unfold removeApplication, bind, deref. simpl. rewrite Hcb.
       intros [= <- <-]. by constructor. }
  rewrite (removeApplication_run _ _ _ cb) by exact Hcb.
  cbv zeta. cbn [after history prov chans].
  destruct (UnexposeService cb _ appId).
  { rewrite after_app. intros [= <- <-]. constructor. }
  destruct (DeleteService cb _ appId).
  { rewrite after_app. intros [= <- <-]. constructor. }
  destruct (registry (prov s) !! appId) as [w|] eqn:Hw.
  - assert (Heq : (history s ++ [ELife appId])
                    ++ [EUnexposeService appId; EDeleteService appId]
                  = history s ++ [ELife appId; EUnexposeService appId;
                                  EDeleteService appId]).
    { by rewrite <- app_assoc. }
    rewrite Heq. intros [= <- <-]. by apply Removed.
  - rewrite after_app. intros [= <- <-]. by apply CleanedUp.
Qed.

Lemma startApplication_cases rt appId s o s' :
  registry (prov s) !! appId = None ->
  startApplication rt appId (after s [ELife appId]) = (o, s') ->
  HandleCase rt appId s o s'.
Proof.
  intros Hno.
  destruct (ApplicationGetter (config (prov s))) as [ag|] eqn:Hag.
  2: { unfold startApplication, bind, deref. simpl. rewrite Hag.
       intros [= <- <-]. by constructor. }
  rewrite (startApplication_run _ _ _ ag) by exact Hag. simpl.
  destruct (snd (ApplicationConfig ag _ appId)).
  { rewrite after_app. intros [= <- <-]. constructor. }
  rewrite <- !app_assoc. simpl.
  destruct (newApplicationWorkerError rt _ appId); intros [= <- <-].
  - apply ConstructionFailed.
  - by apply (Started rt appId s (fst (ApplicationConfig ag (history s ++ [ELife appId]) appId))).
Qed.

Lemma handleApp_cases rt appId s o s' :
  handleApp rt appId s = (o, s') -> HandleCase rt appId s o s'.
Proof.
  destruct (LifeGetter (config (prov s))) as [lg|] eqn:Hlg.
  2: { unfold handleApp, bind, deref. rewrite Hlg. intros [= <- <-]. by constructor. }
  rewrite (handleApp_run _ _ _ _ Hlg). cbv zeta.
  destruct (Life lg (history s) appId) as [l [e|]]; cbn [fst snd].
  - destruct (errors.IsNotFound (Some e)) eqn:Hnf.
    + apply removeApplication_cases.
    + intros [= <- <-]. by constructor.
  - destruct (registry (prov s) !! appId) eqn:Hreg.
    { intros [= <- <-]. constructor. }
    destruct (life.eqb l life.Dead).
    { intros [= <- <-]. constructor. }
    by apply startApplication_cases.
Qed.

(** ** Lifting what one name keeps to the whole loop *)

Section LoopInvariant.

Variable rt : Runtime.
Variables I J : State -> Prop.
Hypothesis I_J : forall s, I s -> J s.
Hypothesis I_record : forall s e, loopEvent e = true -> I s -> I (record s e).
Hypothesis I_step : forall appId s o s',
  I s -> HandleCase rt appId s o s' ->
  match o with Next _ => I s' | _ => J s' end.

Lemma handleApps_lift apps s :
  I s ->
  match handleApps rt apps s with
  | (Next _, s') => I s'
  | (_, s') => J s'
  end.
Proof using I_step.
  revert s. induction apps as [|a apps IH]; intros s Hs; simpl; [done|].
  unfold bind. destruct (handleApp rt a s) as [o s'] eqn:Hstep.
  pose proof (I_step a s o s' Hs (handleApp_cases _ _ _ _ _ Hstep)) as Hs'.
  destruct o as [[]|e|msg]; [by apply IH|done..].
Qed.

Lemma selectLoop_lift script s :
  I s ->
  match selectLoop rt script s with
  | (Blocked, s') => I s'
  | (_, s') => J s'
  end.
Proof using I_J I_record I_step.
  revert s. induction script as [|sel script IH]; intros s Hs; simpl; [done|].
  destruct sel as [|apps|].
  - by apply I_J.
  - pose proof (handleApps_lift apps (record s (EChanges apps))
                  (I_record s (EChanges apps) eq_refl Hs)) as Hbatch.
    destruct (handleApps rt apps _) as [[[]|e|msg] s']; [by apply IH|done..].
  - apply I_J. by apply I_record.
Qed.

Lemma loop_lift script s :
  I s ->
  match loop rt script s with
  | (Blocked, s') => I s'
  | (_, s') => J s'
  end.
Proof using I_J I_record I_step.
  intros Hs. unfold loop, watch, bind, deref, call, returnIfError.
  destruct (ApplicationGetter (config (prov s))) as [ag|]; simpl; [|by apply I_J].
  assert (Hw : I (record s EWatchApplications)) by by apply I_record.
  destruct (snd (WatchApplications ag (history s))); simpl; [by apply I_J|].
  assert (Ha : I (record (record s EWatchApplications)
                    (ECatacombAdd (WatcherWorker (fst (WatchApplications ag (history s))))))).
  { by apply I_record. }
  destruct (catacombAdd rt _ _); simpl; [by apply I_J|].
  by apply selectLoop_lift.
Qed.

End LoopInvariant.

(** ** Batches are handled to completion, in order, before the next is read *)

Lemma handleApp_no_receive rt appId s o s' :
  handleApp rt appId s = (o, s') ->
  exists evs, history s' = history s ++ evs /\ forallb notReceive evs = true.
Proof.
  intros Hcase%handleApp_cases.
  inversion Hcase; subst; inline_lets; simpl;
    try (by exists []; rewrite app_nil_r);
    try (by eexists).
  eexists. rewrite <- app_assoc. split; [reflexivity|]. simpl.
  unfold handshakeEvents.
  by destruct (removalRace rt _ w); destruct (workerStop rt _ w).
Qed.

Lemma handleApps_steps rt apps s o s' :
  handleApps rt apps s = (o, s') ->
  (exists evs, history s' = history s ++ evs /\ forallb notReceive evs = true) /\
  (o = Next tt -> Steps rt s apps s').
Proof.
  revert s. induction apps as [|a apps IH]; intros s; simpl.
  { intros [= <- <-]. split; [|constructor]. exists []. by rewrite app_nil_r. }
  unfold bind. destruct (handleApp rt a s) as [o1 s1] eqn:Hstep.
  destruct (handleApp_no_receive _ _ _ _ _ Hstep) as (evs1 & Hh1 & Hn1).
  destruct o1 as [[]|e|msg].
  - intros Hrest. destruct (IH _ Hrest) as [(evs2 & Hh2 & Hn2) Hsteps]. split.
    + exists (evs1 ++ evs2). rewrite Hh2, Hh1, <- app_assoc. split; [done|].
      rewrite forallb_app. by rewrite Hn1, Hn2.
    + intros Ho. econstructor; [exact Hstep|by apply Hsteps].
  - intros [= <- <-]. split; [by eexists|done].
  - intros [= <- <-]. split; [by eexists|done].
Qed.

(** A receive in a history that begins with events that receive nothing
    lies after them. *)
Lemma receive_after evs tail n1 apps n2 :
  forallb notReceive evs = true ->
  evs ++ tail = n1 ++ EChanges apps :: n2 ->
  exists t1, n1 = evs ++ t1 /\ tail = t1 ++ EChanges apps :: n2.
Proof.
  revert n1. induction evs as [|e evs IH]; intros n1; simpl.
  { intros _ ->. by exists n1. }
  intros [He Hevs]%andb_prop Heq. destruct n1 as [|x n1]; simpl in Heq.
  { injection Heq as -> _. discriminate He. }
  injection Heq as -> Heq. destruct (IH _ Hevs Heq) as (t1 & -> & ->).
  by exists t1.
Qed.

Lemma selectLoop_history rt script s :
  exists tail, history (snd (selectLoop rt script s)) = history s ++ tail.
Proof.
  revert s. induction script as [|sel script IH]; intros s; simpl.
  { exists []. by rewrite app_nil_r. }
  destruct sel as [|apps|]; [exists []; by rewrite app_nil_r| |by eexists].
  destruct (handleApps rt apps _) as [o s1] eqn:Hbatch.
  destruct (handleApps_steps _ _ _ _ _ Hbatch) as [(evs & Hh & _) _].
  simpl in Hh. destruct o as [[]|e|msg]; simpl;
    try (eexists; rewrite Hh, <- app_assoc; reflexivity).
  destruct (IH s1) as [tail Htail]. exists ([EChanges apps] ++ evs ++ tail).
  rewrite Htail, Hh, <- !app_assoc. reflexivity.
Qed.

Lemma selectLoop_turns rt script s r sf n1 apps n2 :
  selectLoop rt script s = (r, sf) ->
  history sf = history s ++ n1 ++ EChanges apps :: n2 ->
  exists batches s1 rest,
    script = map SelChanges batches ++ SelChanges apps :: rest /\
    Turns rt s batches s1 /\
    history s1 = history s ++ n1 /\
    selectLoop rt (SelChanges apps :: rest) s1 = (r, sf).
Proof.
  revert s n1. induction script as [|sel script IH]; intros s n1 Hrun Hh.
  { simpl in Hrun. injection Hrun as <- <-.
    rewrite <- (app_nil_r (history s)) in Hh at 1.
    apply app_inv_head in Hh. by destruct n1. }
  destruct sel as [|apps0|].
  - simpl in Hrun. injection Hrun as <- <-.
    rewrite <- (app_nil_r (history s)) in Hh at 1.
    apply app_inv_head in Hh. by destruct n1.
  - pose proof Hrun as Hrun0. simpl in Hrun.
    destruct (handleApps rt apps0 _) as [o s1] eqn:Hbatch.
    destruct (handleApps_steps _ _ _ _ _ Hbatch) as [(evs & Hh1 & Hn) Hsteps].
    simpl in Hh1.
    assert (Hnow : n1 = [] -> exists batches s2 rest,
              SelChanges apps0 :: script
                = map SelChanges batches ++ SelChanges apps :: rest /\
              Turns rt s batches s2 /\ history s2 = history s ++ n1 /\
              selectLoop rt (SelChanges apps :: rest) s2 = (r, sf)).
    { intros ->. exists [], s, script.
      assert (apps = apps0) as ->.
      { destruct (selectLoop_history rt script s1) as [tail Htail].
        destruct o as [[]|e|msg].
        - rewrite Hrun in Htail. simpl in Htail.
          rewrite Htail, Hh1, <- !app_assoc in Hh.
          apply app_inv_head in Hh. simpl in Hh. by injection Hh as ->.
        - injection Hrun as <- <-. rewrite Hh1, <- !app_assoc in Hh.
          apply app_inv_head in Hh. simpl in Hh. by injection Hh as ->.
        - injection Hrun as <- <-. rewrite Hh1, <- !app_assoc in Hh.
          apply app_inv_head in Hh. simpl in Hh. by injection Hh as ->. }
      split; [done|]. split; [constructor|]. split; [by rewrite app_nil_r|done]. }
    destruct n1 as [|x n1]; [by apply Hnow|]. clear Hnow.
    destruct o as [[]|e|msg].
    + destruct (selectLoop_history rt script s1) as [tail Htail].
      rewrite Hrun in Htail. simpl in Htail.
      rewrite Htail, Hh1, <- !app_assoc in Hh. apply app_inv_head in Hh.
      simpl in Hh. injection Hh as <- Hh.
      destruct (receive_after _ _ _ _ _ Hn Hh) as (t1 & -> & ->).
      destruct (IH s1 t1 Hrun Htail) as (batches & s2 & rest & -> & Hturns & Hh2 & Hcont).
      exists (apps0 :: batches), s2, rest. split; [done|]. split.
      { econstructor; [by apply Hsteps|exact Hturns]. }
      split; [|exact Hcont].
      rewrite Hh2, Hh1, <- !app_assoc. reflexivity.
    + injection Hrun as <- <-. rewrite Hh1, <- !app_assoc in Hh.
      apply app_inv_head in Hh. simpl in Hh. injection Hh as <- Hh.
      rewrite <- (app_nil_r evs) in Hh.
      destruct (receive_after _ _ _ _ _ Hn Hh) as (t1 & _ & Hnil).
      by destruct t1.
    + injection Hrun as <- <-. rewrite Hh1, <- !app_assoc in Hh.
      apply app_inv_head in Hh. simpl in Hh. injection Hh as <- Hh.
      rewrite <- (app_nil_r evs) in Hh.
      destruct (receive_after _ _ _ _ _ Hn Hh) as (t1 & _ & Hnil).
      by destruct t1.
  - simpl in Hrun. injection Hrun as <- <-. simpl in Hh.
    apply app_inv_head in Hh. destruct n1 as [|x [|y n1]]; discriminate Hh.
Qed.

Lemma selectLoop_blocked_turns rt script s sf :
  selectLoop rt script s = (Blocked, sf) ->
  exists batches, script = map SelChanges batches /\ Turns rt s batches sf.
Proof.
  revert s. induction script as [|sel script IH]; intros s; simpl.
  { intros [= <-]. exists []. split; [done|constructor]. }
  destruct sel as [|apps|]; [done| |done].
  destruct (handleApps rt apps _) as [o s1] eqn:Hbatch.
  destruct (handleApps_steps _ _ _ _ _ Hbatch) as [_ Hsteps].
  destruct o as [[]|e|msg]; [|done..].
  intros (batches & -> & Hturns)%IH. exists (apps :: batches).
  split; [done|]. econstructor; [by apply Hsteps|exact Hturns].
Qed.

(** C7.  Whenever the history of a run shows a batch being received, the
    loop was then at its select in a state whose history is exactly what
    precedes the receive, and it had come there from the start by handling
    every batch received before in full: each name of each batch by a run
    of the loop body that came to its end, one name after the other in
    the order received, one batch after the other.  What follows the
    receive is what the loop does with this batch and the later ones.
    And when the loop is waiting in its select at the end of a run, every
    batch it received has been handled in full in the same way. *)
Theorem batches_completed_before_next rt script p r sf :
  loop rt script (start p) = (r, sf) ->
  (forall h1 apps h2,
     history sf = h1 ++ EChanges apps :: h2 ->
     exists s0 batches s1 rest,
       watch rt (start p) = (Next tt, s0) /\
       script = map SelChanges batches ++ SelChanges apps :: rest /\
       Turns rt s0 batches s1 /\
       history s1 = h1 /\
       selectLoop rt (SelChanges apps :: rest) s1 = (r, sf)) /\
  (r = Blocked ->
     exists s0 batches,
       watch rt (start p) = (Next tt, s0) /\
       script = map SelChanges batches /\
       Turns rt s0 batches sf).
Proof.
  unfold loop. intros Hrun. split.
  - intros h1 apps h2 Hh.
    assert (Hw : exists evs, history (snd (watch rt (start p))) = evs /\
                             forallb notReceive evs = true).
    { unfold watch, bind, deref, call, returnIfError. simpl.
      destruct (ApplicationGetter (config p)) as [ag|]; simpl; [|by eexists].
      destruct (snd (WatchApplications ag [])); simpl; [by eexists|].
      destruct (catacombAdd rt _ _); by eexists. }
    destruct Hw as (evs & Hevs & Hn).
    destruct (watch rt (start p)) as [[[]|e|msg] s0]; simpl in Hevs.
    + destruct (selectLoop_history rt script s0) as [tail Htail].
      rewrite Hrun in Htail. simpl in Htail.
      rewrite Htail, Hevs in Hh.
      destruct (receive_after _ _ _ _ _ Hn Hh) as (t1 & -> & ->).
      destruct (selectLoop_turns _ _ _ _ _ _ _ _ Hrun Htail)
        as (batches & s1 & rest & Hscript & Hturns & Hh1 & Hcont).
      exists s0, batches, s1, rest. rewrite Hh1, Hevs. done.
    + injection Hrun as <- <-. rewrite Hevs in Hh.
      rewrite <- (app_nil_r evs) in Hh.
      destruct (receive_after _ _ _ _ _ Hn Hh) as (t1 & _ & Hnil). by destruct t1.
    + injection Hrun as <- <-. rewrite Hevs in Hh.
      rewrite <- (app_nil_r evs) in Hh.
      destruct (receive_after _ _ _ _ _ Hn Hh) as (t1 & _ & Hnil). by destruct t1.
  - intros ->. destruct (watch rt (start p)) as [[[]|e|msg] s0]; [|done..].
    destruct (selectLoop_blocked_turns _ _ _ _ Hrun) as (batches & Hscript & Hturns).
    by exists s0, batches.
Qed.

Lemma batches_completed_before_next_witness :
  let cfg := doubles.mkConfig doubles.okGetter doubles.okBroker
               (doubles.lifeGetter [(life.Alive, None); (life.Dead, None);
                                    (life.Dead, doubles.gone)]) in
  let script := [SelChanges ["app1"; "app2"]; SelChanges ["app1"]] in
  let run := loop doubles.quiet script (start (doubles.fresh cfg)) in
  let h1 := [EWatchApplications; ECatacombAdd (WatcherWorker 0);
             EChanges ["app1"; "app2"];
             ELife "app1"; EApplicationConfig "app1"; EMakeChan 0;
             ENewApplicationWorker "app1" 0 true;
             ECatacombAdd (AppWorker doubles.worker1); ELife "app2"] in
  (exists s0 batches s1 rest,
     watch doubles.quiet (start (doubles.fresh cfg)) = (Next tt, s0) /\
     script = map SelChanges batches ++ SelChanges ["app1"] :: rest /\
     Turns doubles.quiet s0 batches s1 /\
     history s1 = h1 /\
     selectLoop doubles.quiet (SelChanges ["app1"] :: rest) s1 = (fst run, snd run)) /\
  (exists s0 batches,
     watch doubles.quiet (start (doubles.fresh cfg)) = (Next tt, s0) /\
     script = map SelChanges batches /\
     Turns doubles.quiet s0 batches (snd run)).
Proof.
  intros cfg script run h1.
  destruct (batches_completed_before_next doubles.quiet script (doubles.fresh cfg)
              (fst run) (snd run) (surjective_pairing run)) as [Hsplit Hblocked].
  split.
  - apply (Hsplit h1 ["app1"]
             [ELife "app1"; EUnexposeService "app1"; EDeleteService "app1";
              ESend 0; EStop doubles.worker1]).
    vm_compute. reflexivity.
  - apply Hblocked. vm_compute. reflexivity.
Defined.

(** * Further properties of the worker *)

(** ** The registry helpers compose like a map *)

Lemma registry_saved p a w : registry (saved p a w) = <[a := w]> (registry p).
Proof. reflexivity. Qed.

(** X1. Saving a worker under a name makes lookup of that name return it,
    and changes the lookup of no other name. *)
Theorem save_then_lookup (p : provisioner) (a b : string) (w : applicationWorker) :
  exists p', saveApplicationWorker p a w = Some p' /\
    getApplicationWorker p' b
      = if decide (a = b) then (Some w, true) else getApplicationWorker p b.
Proof.
  exists (saved p a w). split; [apply saveApplicationWorker_saved|].
  rewrite !getApplicationWorker_lookup, registry_saved, lookup_insert.
  by destruct (decide (a = b)).
Qed.

(** X2. After deleting a name, lookup of that name finds nothing, and the
    lookup of every other name is unchanged. *)
Theorem delete_then_lookup (p : provisioner) (a b : string) :
  getApplicationWorker (deleteApplicationWorker p a) b
    = if decide (a = b) then (None, false) else getApplicationWorker p b.
Proof.
  rewrite !getApplicationWorker_lookup, deleteApplicationWorker_registry, lookup_delete.
  by destruct (decide (a = b)).
Qed.

(** X3. Deleting a name right after saving it, when it had no worker
    before, gives back every lookup as it was; the map stays allocated,
    also when it was nil before the save. *)
Theorem delete_undoes_fresh_save (p : provisioner) (a : string) (w : applicationWorker) :
  registry p !! a = None ->
  exists p', saveApplicationWorker p a w = Some p' /\
    (forall b, getApplicationWorker (deleteApplicationWorker p' a) b
               = getApplicationWorker p b) /\
    appWorkers (deleteApplicationWorker p' a) = Some (registry p).
Proof.
  intros Hno. exists (saved p a w). split; [apply saveApplicationWorker_saved|].
  assert (Hreg : delete a (<[a := w]> (registry p)) = registry p).
  { rewrite delete_insert_eq. by apply delete_id. }
  split.
  - intros b. rewrite !getApplicationWorker_lookup, deleteApplicationWorker_registry.
    by rewrite registry_saved, Hreg.
  - unfold deleteApplicationWorker, saved, set_appWorkers, gomap.delete. simpl.
    by rewrite Hreg.
Qed.

Lemma delete_undoes_fresh_save_witness :
  let p := {| catacomb_ := catacomb.zero;
              config := doubles.mkConfig doubles.okGetter doubles.okBroker
                          (doubles.lifeGetter []);
              appWorkers := None |} in
  exists p', saveApplicationWorker p "app1" doubles.worker1 = Some p' /\
    (forall b, getApplicationWorker (deleteApplicationWorker p' "app1") b
               = getApplicationWorker p b) /\
    appWorkers (deleteApplicationWorker p' "app1") = Some ∅.
Proof.
  intros p. exact (delete_undoes_fresh_save p "app1" doubles.worker1 eq_refl).
Defined.

(** X4. Of two saves under one name the later wins, and saves under
    different names can be done in either order. *)
Theorem saves_compose (p : provisioner) (a b : string) (w v : applicationWorker) :
  (saveApplicationWorker p a w ≫= fun p1 => saveApplicationWorker p1 a v)
    = saveApplicationWorker p a v /\
  (a <> b ->
   (saveApplicationWorker p a w ≫= fun p1 => saveApplicationWorker p1 b v)
     = (saveApplicationWorker p b v ≫= fun p1 => saveApplicationWorker p1 a w)).
Proof.
  rewrite !saveApplicationWorker_saved. simpl.
  rewrite !saveApplicationWorker_saved. unfold saved, set_appWorkers. simpl.
  change (registry {| catacomb_ := catacomb_ p; config := config p;
                      appWorkers := Some (<[a := w]> (registry p)) |})
    with (<[a := w]> (registry p)).
  change (registry {| catacomb_ := catacomb_ p; config := config p;
                      appWorkers := Some (<[b := v]> (registry p)) |})
    with (<[b := v]> (registry p)).
  split.
  - by rewrite insert_insert_eq.
  - intros Hne. by rewrite insert_insert_ne.
Qed.

Lemma saves_compose_witness :
  let p := {| catacomb_ := catacomb.zero;
              config := doubles.mkConfig doubles.okGetter doubles.okBroker
                          (doubles.lifeGetter []);
              appWorkers := None |} in
  (saveApplicationWorker p "app1" doubles.worker1
     ≫= fun p1 => saveApplicationWorker p1 "app2" doubles.worker2)
  = (saveApplicationWorker p "app2" doubles.worker2
       ≫= fun p1 => saveApplicationWorker p1 "app1" doubles.worker1).
Proof.
  intros p.
  refine (proj2 (saves_compose p "app1" "app2" doubles.worker1 doubles.worker2) _).
  discriminate.
Defined.

(** ** Errors before and while handling a name *)

(** X5. If WatchApplications fails, or attaching the watcher to the
    catacomb fails, the loop returns that error, traced, without reading
    any batch; the provisioner is left as it was. *)
Theorem watch_failure_returns rt script s ag :
  ApplicationGetter (config (prov s)) = Some ag ->
  let r := WatchApplications ag (history s) in
  (forall e, snd r = Some e ->
     loop rt script s = (Returned (errors.Trace e), after s [EWatchApplications])) /\
  (forall e, snd r = None ->
     catacombAdd rt (history s ++ [EWatchApplications]) (WatcherWorker (fst r)) = Some e ->
     loop rt script s
       = (Returned (errors.Trace e),
          after s [EWatchApplications; ECatacombAdd (WatcherWorker (fst r))])).
Proof.
  intros Hag r. unfold loop, watch, bind, deref, call, returnIfError.
  rewrite Hag. simpl. fold r. split.
  - intros e ->. reflexivity.
  - intros e -> Hadd. simpl. rewrite Hadd. by state_eq.
Qed.

Lemma watch_failure_returns_witness :
  let cfg := doubles.mkConfig doubles.okGetter doubles.okBroker (doubles.lifeGetter []) in
  let rt := doubles.runtime None SendAccepted None (Some doubles.boom) in
  loop rt [SelChanges ["app1"]] (start (doubles.fresh cfg))
    = (Returned (errors.Trace doubles.boom),
       after (start (doubles.fresh cfg))
         [EWatchApplications; ECatacombAdd (WatcherWorker 0)]).
Proof.
  intros cfg rt.
  exact (proj2 (watch_failure_returns rt [SelChanges ["app1"]]
                  (start (doubles.fresh cfg)) _ eq_refl)
           doubles.boom eq_refl eq_refl).
Defined.

(** X6. If the Life query fails with an error that is not NotFound, the
    loop returns that error, traced, having called neither the broker nor
    the application getter for the name, and the registry is unchanged. *)
Theorem life_error_aborts rt appId s lg l e :
  LifeGetter (config (prov s)) = Some lg ->
  Life lg (history s) appId = (l, Some e) ->
  errors.IsNotFound (Some e) = false ->
  AbortsWith rt appId s e (after s [ELife appId]).
Proof.
  intros Hlg Hlife Hnf. apply step_aborts; [|done].
  rewrite (handleApp_run _ _ _ _ Hlg), Hlife. cbv zeta. cbn [fst snd].
  by rewrite Hnf.
Qed.

Lemma life_error_aborts_witness :
  let cfg := doubles.mkConfig doubles.okGetter doubles.okBroker
               (doubles.lifeGetter [(life.Alive, Some doubles.boom)]) in
  let s := start (doubles.fresh cfg) in
  handleApp doubles.quiet "app1" s
    = (Return (errors.Trace doubles.boom), after s [ELife "app1"]).
Proof.
  intros cfg s.
  exact (proj1 (life_error_aborts doubles.quiet "app1" s _ life.Alive doubles.boom
                  eq_refl eq_refl eq_refl)).
Defined.

(** X7. Only Dead keeps an unregistered name from getting a worker: for
    any other Life value, Dying included, the config is fetched, a worker
    is constructed with a new removal channel, registered and attached. *)
Theorem not_dead_is_started rt appId s lg ag l cfg :
  LifeGetter (config (prov s)) = Some lg ->
  ApplicationGetter (config (prov s)) = Some ag ->
  Life lg (history s) appId = (l, None) ->
  l <> life.Dead ->
  registry (prov s) !! appId = None ->
  ApplicationConfig ag (history s ++ [ELife appId]) appId = (cfg, None) ->
  newApplicationWorkerError rt
    (history s ++ [ELife appId; EApplicationConfig appId; EMakeChan (chans s)])
    appId = None ->
  let w := built s appId cfg in
  handleApp rt appId s
    = (Next tt,
       {| prov := saved (prov s) appId w;
          history := history s ++
            [ELife appId; EApplicationConfig appId; EMakeChan (chans s);
             ENewApplicationWorker appId (chans s) (jujuManagedUnits w);
             ECatacombAdd (AppWorker w)];
          chans := S (chans s) |}).
Proof.
  intros Hlg Hag Hlife Hl Hno Hcfg Hnew w.
  rewrite (handleApp_run _ _ _ _ Hlg), Hlife. simpl. rewrite Hno.
  assert (life.eqb l life.Dead = false) as -> by by destruct l.
  rewrite (startApplication_run _ _ _ ag) by exact Hag. simpl.
  rewrite Hcfg. simpl. rewrite <- app_assoc. simpl. rewrite Hnew.
  unfold w, built. simpl. by rewrite <- ?app_assoc.
Qed.

Lemma not_dead_is_started_witness :
  let cfg := doubles.mkConfig doubles.okGetter doubles.okBroker
               (doubles.lifeGetter [(life.Dying, None)]) in
  let s := start (doubles.fresh cfg) in
  handleApp doubles.quiet "app1" s
    = (Next tt,
       {| prov := saved (prov s) "app1" doubles.worker1;
          history := [ELife "app1"; EApplicationConfig "app1"; EMakeChan 0;
                      ENewApplicationWorker "app1" 0 true;
                      ECatacombAdd (AppWorker doubles.worker1)];
          chans := 1 |}).
Proof.
  intros cfg s.
  assert (Hdying : life.Dying <> life.Dead) by discriminate.
  exact (not_dead_is_started doubles.quiet "app1" s _ _ life.Dying _
           eq_refl eq_refl eq_refl Hdying eq_refl eq_refl eq_refl).
Defined.

(** X8. When Life reports NotFound for a name that has no worker and both
    broker calls succeed, the two broker calls are all the loop does:
    nothing is signalled or stopped and the registry is unchanged. *)
Theorem notfound_without_worker rt appId s lg cb :
  LifeGetter (config (prov s)) = Some lg ->
  ContainerBroker (config (prov s)) = Some cb ->
  errors.IsNotFound (snd (Life lg (history s) appId)) = true ->
  UnexposeService cb (history s ++ [ELife appId]) appId = None ->
  DeleteService cb (history s ++ [ELife appId; EUnexposeService appId]) appId = None ->
  registry (prov s) !! appId = None ->
  handleApp rt appId s
    = (Next tt, after s [ELife appId; EUnexposeService appId; EDeleteService appId]).
Proof.
  intros Hlg Hcb Hnf Hun Hdel Hno.
  rewrite (handleApp_run _ _ _ _ Hlg). simpl. rewrite Hnf.
  rewrite (removeApplication_run _ _ _ cb) by exact Hcb. simpl.
  rewrite Hun. rewrite <- app_assoc. simpl. rewrite Hdel, Hno.
  by rewrite after_app.
Qed.

Lemma notfound_without_worker_witness :
  let cfg := doubles.mkConfig doubles.okGetter doubles.okBroker
               (doubles.lifeGetter [(life.Dead, doubles.gone)]) in
  let s := start (doubles.fresh cfg) in
  handleApp doubles.quiet "app1" s
    = (Next tt, after s [ELife "app1"; EUnexposeService "app1"; EDeleteService "app1"]).
Proof.
  intros cfg s.
  exact (notfound_without_worker doubles.quiet "app1" s _ _
           eq_refl eq_refl eq_refl eq_refl eq_refl eq_refl).
Defined.

(** ** Runs of the loop *)






(** X11. In a worker that [NewWorker] has started, the loop never calls a
    method on a nil field of the config and never assigns into a nil
    registry map: [Validate] has excluded the first and
    [saveApplicationWorker] allocates against the second.  (The values
    collaborators return are not nil in this embedding.) *)
Theorem started_worker_never_panics rt script cfg p msg :
  NewWorker cfg = (Some p, None) -> fst (run rt script p) <> Panicked msg.
Proof. apply loop_no_panic. Qed.

Lemma started_worker_never_panics_witness :
  let cfg := doubles.mkConfig doubles.okGetter doubles.okBroker
               (doubles.lifeGetter [(life.Alive, None); (life.Dead, doubles.gone)]) in
  fst (run doubles.quiet [SelChanges ["app1"; "app1"]; SelClosed] (doubles.fresh cfg))
    <> Panicked "nil pointer dereference: LifeGetter".
Proof.
  intros cfg.
  exact (started_worker_never_panics doubles.quiet _ cfg (doubles.fresh cfg) _ eq_refl).
Defined.

(** ** What the registry holds *)

Lemma Provenance_grow s s' evs :
  Provenance s ->
  history s' = history s ++ evs ->
  (forall a w, registry (prov s') !! a = Some w ->
     registry (prov s) !! a = Some w \/
     (application w = a /\
      ENewApplicationWorker a (appRemoved w) (jujuManagedUnits w) ∈ evs)) ->
  Provenance s'.
Proof.
  intros Hs Hh Hp a w Hw. rewrite Hh, elem_of_app.
  destruct (Hp a w Hw) as [Hold|[Hname Hev]]; [|by auto].
  destruct (Hs a w Hold). auto.
Qed.

Lemma Provenance_step rt appId s o s' :
  Provenance s -> HandleCase rt appId s o s' -> Provenance s'.
Proof.
  intros Hs Hcase.
  inversion Hcase; subst; inline_lets; try exact Hs;
    (eapply Provenance_grow;
     [exact Hs | simpl; rewrite <- ?app_assoc; reflexivity | simpl]);
    try (intros a w' Hw'; by left).
  - intros a w'. rewrite deleteApplicationWorker_registry.
    intros [_ Hw]%lookup_delete_Some. auto.
  - intros a w' [Hw'|[-> ->]]%saved_lookup; [by auto|].
    right. split; [done|]. set_solver.
Qed.

Lemma loop_provenance rt script s :
  Provenance s -> Provenance (snd (loop rt script s)).
Proof.
  intros Hs.
  pose proof (loop_lift rt Provenance Provenance (fun _ H => H)) as Hlift.
  assert (Hloop : match loop rt script s with
                  | (Blocked, s') => Provenance s'
                  | (_, s') => Provenance s'
                  end).
  { apply Hlift; [| |done].
    - intros s1 e _ H1. apply (Provenance_grow s1 _ [e]); auto.
    - intros appId s1 o s1' H1 Hcase.
      pose proof (Provenance_step _ _ _ _ _ H1 Hcase). by destruct o. }
  by destruct (loop rt script s) as [[|e|msg] s'].
Qed.

(** X12. A registry that starts empty only ever holds workers the loop
    constructed itself, each registered under the application name it was
    constructed for. *)
Theorem registry_holds_constructed_workers rt script p a w :
  registry p = ∅ ->
  registry (prov (snd (loop rt script (start p)))) !! a = Some w ->
  application w = a /\
  ENewApplicationWorker a (appRemoved w) (jujuManagedUnits w)
    ∈ history (snd (loop rt script (start p))).
Proof.
  intros Hp. apply loop_provenance.
  intros a' w'. simpl. by rewrite Hp, lookup_empty.
Qed.

Lemma registry_holds_constructed_workers_witness :
  let cfg := doubles.mkConfig doubles.okGetter doubles.okBroker
               (doubles.lifeGetter [(life.Alive, None)]) in
  ENewApplicationWorker "app1" 0 true
    ∈ history (snd (loop doubles.quiet [SelChanges ["app1"]] (start (doubles.fresh cfg)))).
Proof.
  intros cfg.
  exact (proj2 (registry_holds_constructed_workers doubles.quiet [SelChanges ["app1"]]
                  (doubles.fresh cfg) "app1" doubles.worker1 eq_refl eq_refl)).
Defined.

(** ** Signals and stops *)

Lemma occurrences_app P h h' :
  occurrences P (h ++ h') = occurrences P h + occurrences P h'.
Proof. induction h as [|e h IH]; simpl; [done|]. rewrite IH. lia. Qed.

Lemma handshakeEvents_stops rt appId h w c :
  stops c (handshakeEvents rt appId h w) = if Nat.eqb c (appRemoved w) then 1 else 0.
Proof.
  unfold stops, handshakeEvents.
  destruct (removalRace rt h w); simpl;
    destruct (workerStop rt _ w); simpl; destruct (Nat.eqb c (appRemoved w)); reflexivity.
Qed.

Lemma Balanced_grow s s' evs :
  Balanced s -> history s' = history s ++ evs ->
  (forall c, stops c evs = signals c evs) -> Balanced s'.
Proof.
  intros Hs Hh Hevs c. unfold Balanced, stops in *.
  rewrite Hh, occurrences_app, signals_app, (Hs c), (Hevs c). done.
Qed.

Lemma Balanced_step rt appId s o s' :
  Balanced s -> HandleCase rt appId s o s' -> Balanced s'.
Proof.
  intros Hs Hcase.
  inversion Hcase; subst; inline_lets; try exact Hs;
    (eapply Balanced_grow;
     [exact Hs | simpl; rewrite <- ?app_assoc; reflexivity | intros c]);
    try reflexivity.
  pose proof (handshakeEvents_stops rt appId
    (history s ++ [ELife appId; EUnexposeService appId; EDeleteService appId]) w c)
    as Hstops.
  unfold stops in *.
  rewrite occurrences_app, signals_app, Hstops, handshakeEvents_signals.
  reflexivity.
Qed.

Lemma loop_balanced rt script s : Balanced s -> Balanced (snd (loop rt script s)).
Proof.
  intros Hs.
  assert (Hloop : match loop rt script s with
                  | (Blocked, s') => Balanced s'
                  | (_, s') => Balanced s'
                  end).
  { apply (loop_lift rt Balanced Balanced); [done| | |done].
    - intros s1 e He H1. apply (Balanced_grow s1 _ [e]); [done..|].
      intros c. by destruct e as [|[]| | | | | | | | | | | |].
    - intros appId s1 o s1' H1 Hcase.
      pose proof (Balanced_step _ _ _ _ _ H1 Hcase). by destruct o. }
  by destruct (loop rt script s) as [[|e|msg] s'].
Qed.

(** X13. Over a whole run, a worker is stopped exactly as often as its
    removal channel has been sent on or closed, and that is at most once:
    no worker is stopped without the removal notice, and none twice. *)
Theorem stop_follows_removal_notice rt script p c :
  registry p = ∅ ->
  let h := history (snd (loop rt script (start p))) in
  stops c h = signals c h /\ stops c h <= 1.
Proof.
  intros Hp h.
  assert (Hbal : stops c h = signals c h).
  { by apply (loop_balanced rt script (start p)). }
  split; [exact Hbal|]. rewrite Hbal.
  apply (inv_once _ (loop_inv rt script _ (start_inv p Hp))).
Qed.

Lemma stop_follows_removal_notice_witness :
  let cfg := doubles.mkConfig doubles.okGetter doubles.okBroker
               (doubles.lifeGetter [(life.Alive, None); (life.Dead, doubles.gone)]) in
  let h := history (snd (loop doubles.quiet [SelChanges ["app1"; "app1"]]
                           (start (doubles.fresh cfg)))) in
  stops 0 h = signals 0 h /\ stops 0 h <= 1.
Proof.
  intros cfg.
  exact (stop_follows_removal_notice doubles.quiet [SelChanges ["app1"; "app1"]]
           (doubles.fresh cfg) 0 eq_refl).
Defined.

(** X14. A worker that is still in the registry has not been told of a
    removal and has not been stopped, and no other registered name shares
    its removal channel. *)
Theorem registered_worker_is_untouched rt script p a w :
  registry p = ∅ ->
  let s' := snd (loop rt script (start p)) in
  registry (prov s') !! a = Some w ->
  signals (appRemoved w) (history s') = 0 /\
  stops (appRemoved w) (history s') = 0 /\
  forall b w', registry (prov s') !! b = Some w' ->
               appRemoved w' = appRemoved w -> b = a.
Proof.
  intros Hp s' Hw.
  pose proof (loop_inv rt script _ (start_inv p Hp)) as Hinv. fold s' in Hinv.
  destruct (inv_registered _ Hinv a w Hw) as [_ Hsig].
  split; [exact Hsig|]. split.
  - rewrite <- Hsig. by apply (loop_balanced rt script (start p)).
  - intros b w' Hw' Heq. exact (inv_distinct _ Hinv b a w' w Hw' Hw Heq).
Qed.

Lemma registered_worker_is_untouched_witness :
  let cfg := doubles.mkConfig doubles.okGetter doubles.okBroker
               (doubles.lifeGetter [(life.Alive, None); (life.Dying, None)]) in
  let s' := snd (loop doubles.quiet [SelChanges ["app1"; "app2"]]
                   (start (doubles.fresh cfg))) in
  signals 1 (history s') = 0 /\
  stops 1 (history s') = 0 /\
  forall b w', registry (prov s') !! b = Some w' -> appRemoved w' = 1 -> b = "app2".
Proof.
  intros cfg.
  exact (registered_worker_is_untouched doubles.quiet [SelChanges ["app1"; "app2"]]
           (doubles.fresh cfg) "app2" doubles.worker2 eq_refl eq_refl).
Defined.

(** ** Cleanup calls come in pairs *)

Lemma handshakeEvents_no_cleanup rt appId h w a :
  occurrences (isUnexpose a) (handshakeEvents rt appId h w) = 0 /\
  occurrences (isDelete a) (handshakeEvents rt appId h w) = 0.
Proof.
  unfold handshakeEvents.
  by destruct (removalRace rt h w); destruct (workerStop rt _ w).
Qed.

Lemma Cleaned_grow s s' evs :
  Cleaned s -> history s' = history s ++ evs ->
  (forall a, occurrences (isUnexpose a) evs = occurrences (isDelete a) evs) ->
  Cleaned s'.
Proof.
  intros Hs Hh Hevs a. rewrite Hh, !occurrences_app, (Hs a), (Hevs a). done.
Qed.

Lemma AlmostCleaned_grow s s' evs :
  Cleaned s -> history s' = history s ++ evs ->
  (forall a, occurrences (isDelete a) evs <= occurrences (isUnexpose a) evs
               <= S (occurrences (isDelete a) evs)) ->
  AlmostCleaned s'.
Proof.
  intros Hs Hh Hevs a. rewrite Hh, !occurrences_app, (Hs a).
  specialize (Hevs a). lia.
Qed.

Lemma Cleaned_AlmostCleaned s : Cleaned s -> AlmostCleaned s.
Proof. intros Hs a. rewrite (Hs a). lia. Qed.

Lemma Cleaned_step rt appId s o s' :
  Cleaned s -> HandleCase rt appId s o s' ->
  match o with Next _ => Cleaned s' | _ => AlmostCleaned s' end.
Proof.
  intros Hs Hcase.
  inversion Hcase; subst; inline_lets; cbv iota;
    try (by apply Cleaned_AlmostCleaned);
    (first [ eapply Cleaned_grow | eapply AlmostCleaned_grow ];
     [exact Hs | simpl; rewrite <- ?app_assoc; reflexivity | intros a]);
    rewrite ?occurrences_app;
    try (destruct (handshakeEvents_no_cleanup rt appId
           (history s ++ [ELife appId; EUnexposeService appId; EDeleteService appId])
           w a) as [-> ->]);
    simpl; destruct (String.eqb a appId); lia.
Qed.

(** X15. For every name, over any run, DeleteService is never called more
    often than UnexposeService, and UnexposeService at most once more
    than DeleteService; while the loop has not returned, the two have been
    called equally often. *)
Theorem cleanup_calls_pair_up rt script p a :
  let r := loop rt script (start p) in
  let u := occurrences (isUnexpose a) (history (snd r)) in
  let d := occurrences (isDelete a) (history (snd r)) in
  d <= u <= S d /\ (fst r = Blocked -> u = d).
Proof.
  intros r u d.
  assert (Hloop : match r with
                  | (Blocked, s') => Cleaned s'
                  | (_, s') => AlmostCleaned s'
                  end).
  { apply (loop_lift rt Cleaned AlmostCleaned).
    - apply Cleaned_AlmostCleaned.
    - intros s1 e He H1. apply (Cleaned_grow s1 _ [e]); [done..|].
      intros b. by destruct e.
    - apply Cleaned_step.
    - intros b. reflexivity. }
  unfold u, d. destruct r as [[|e|msg] s']; simpl in *.
  - split; [|intros _; apply Hloop]. rewrite (Hloop a). lia.
  - split; [apply Hloop|done].
  - split; [apply Hloop|done].
Qed.

Lemma cleanup_calls_pair_up_witness :
  let cfg := doubles.mkConfig doubles.okGetter doubles.okBroker
               (doubles.lifeGetter [(life.Dead, doubles.gone)]) in
  let r := loop doubles.quiet [SelChanges ["app1"]] (start (doubles.fresh cfg)) in
  occurrences (isUnexpose "app1") (history (snd r))
    = occurrences (isDelete "app1") (history (snd r)).
Proof.
  intros cfg.
  exact (proj2 (cleanup_calls_pair_up doubles.quiet [SelChanges ["app1"]]
                  (doubles.fresh cfg) "app1") eq_refl).
Defined.

(** ** The channels the loop hands out *)

Lemma constructedChans_app h h' :
  constructedChans (h ++ h') = constructedChans h ++ constructedChans h'.
Proof.
  induction h as [|e h IH]; simpl; [done|].
  destruct e; simpl; by rewrite ?IH.
Qed.

Lemma handshakeEvents_constructs_nothing rt appId h w :
  constructedChans (handshakeEvents rt appId h w) = [].
Proof.
  unfold handshakeEvents.
  by destruct (removalRace rt h w); destruct (workerStop rt _ w).
Qed.

Lemma ChannelsInOrder_step rt appId s o s' :
  ChannelsInOrder s -> HandleCase rt appId s o s' -> ChannelsInOrder s'.
Proof.
  unfold ChannelsInOrder. intros Hs Hcase.
  inversion Hcase; subst; inline_lets; simpl;
    rewrite ?constructedChans_app, ?handshakeEvents_constructs_nothing, ?Hs; simpl;
    rewrite ?app_nil_r; try done;
    exact (eq_sym (seq_S (chans s) 0)).
Qed.

(** X17. In a run of the loop every call of newApplicationWorker is given
    a removal channel of its own: no channel is handed out twice. *)
Theorem workers_get_fresh_channels rt script p :
  NoDup (constructedChans (history (snd (loop rt script (start p))))).
Proof.
  assert (Hloop : match loop rt script (start p) with
                  | (Blocked, s') => ChannelsInOrder s'
                  | (_, s') => ChannelsInOrder s'
                  end).
  { apply (loop_lift rt ChannelsInOrder ChannelsInOrder); [done| | |done].
    - unfold ChannelsInOrder. intros s1 e He H1. simpl.
      rewrite constructedChans_app, H1. destruct e; try done; by rewrite app_nil_r.
    - intros appId s1 o s1' H1 Hcase.
      pose proof (ChannelsInOrder_step _ _ _ _ _ H1 Hcase). by destruct o. }
  assert (Heq : ChannelsInOrder (snd (loop rt script (start p)))).
  { by destruct (loop rt script (start p)) as [[|e|msg] s']. }
  rewrite Heq. apply NoDup_seq.
Qed.
